(** * Verification of the polyagamma numerical kernels ([pgm_common.h])

    A shallow embedding of the four kernels of [src/pgm_common.h]:
    - [pgm_erfc], the complementary error function,
    - [pgm_lgamma], the logarithm of the gamma function,
    - [pgm_gammaq] with its two continued fractions [confluent_x_smaller]
      and [confluent_p_smaller],
    - [random_left_bounded_gamma], the sampler of a left-truncated gamma.

    A C [double] is a binary64 value of Rocq's primitive [float]: [+], [-],
    [*], [/], [sqrt], [fabs] and the comparisons are the IEEE 754 operations
    the C code runs.  The functions of [<math.h>] that IEEE 754 does not fix
    ([exp], [log], [log1p]) are fields of a record [libm]; the kernels take
    it as a parameter.  A [size_t] is a [Z] in [[0, 2^64)], its wrap-around
    written out.  A function returns [option]: [None] stands for behaviour
    the C standard leaves undefined (a conversion to [size_t] out of range,
    a read outside the table) or for a loop that ran out of fuel. *)

From Stdlib Require Import ZArith List Bool Lia Floats Sorted.
Import ListNotations.

Set Warnings "-inexact-float".

(** ** The option monad of the embedding *)

Definition bind {A B : Type} (m : option A) (k : A -> option B) : option B :=
  match m with
  | Some a => k a
  | None => None
  end.

Notation "x <- m ;; k" := (bind m (fun x => k))
  (at level 61, m at next level, right associativity).

(** ** Doubles, [size_t] and the conversions between them *)

Module Double.

Local Open Scope float_scope.

(** [<float.h>] *)
Definition DBL_EPSILON : float := 0x1p-52.
Definition DBL_MIN : float := 0x1p-1022.

(** [pgm_common.h], lines 11-14 and 312 *)
Definition PGM_PI2_8 : float := 1.233700550136169.
Definition PGM_LOGPI_2 : float := 0.4515827052894548.
Definition PGM_LS2PI : float := 0.9189385332046727.
Definition PGM_MAX_EXP : float := 708.3964202663686.
Definition PGM_CONFLUENT_EPSILON : float := 1e-07.

Definition SIZE_MAX : Z := 2 ^ 64 - 1.

(** The integer a finite binary64 value truncates to (towards zero). *)
Definition SFtrunc (f : spec_float) : option Z :=
  match f with
  | S754_zero _ => Some 0%Z
  | S754_finite s m e =>
      let v := if (0 <=? e)%Z then (Zpos m * 2 ^ e)%Z
               else (Zpos m / 2 ^ (- e))%Z in
      Some (if s then (- v)%Z else v)
  | S754_infinity _ | S754_nan => None
  end.

(** [(size_t)z]: the fractional part is discarded; the conversion is
    undefined when the integral part is not a [size_t] (C11 6.3.1.4). *)
Definition to_size_t (z : float) : option Z :=
  v <- SFtrunc (Prim2SF z) ;;
  if ((0 <=? v) && (v <=? SIZE_MAX))%Z then Some v else None.

(** The binary64 value nearest to an integer (ties to even). *)
Definition of_Z (n : Z) : float :=
  SF2Prim (binary_normalize prec emax n 0 false).

(** [(double)n] for a [size_t] [n]. *)
Definition of_size_t (n : Z) : float := of_Z n.

(** The functions of [<math.h>] that the kernels call and IEEE 754 does
    not define. *)
Record libm : Type := {
  exp : float -> float;
  log : float -> float;
  log1p : float -> float
}.

(** [fabs] and [sqrt] are IEEE 754 operations. *)
Definition fabs (x : float) : float := abs x.
Definition sqrt (x : float) : float := PrimFloat.sqrt x.

(** *** Classes of binary64 values used in the statements below

    The classes are read on the specification [spec_float] of a double:
    a sign, a mantissa [m] and an exponent [e] standing for [m * 2^e]. *)

(** [r] is a number at least [m1 * 2^e1], the pair of a double: [+inf],
    or a positive number of greater exponent, or of the same exponent and
    a mantissa that is not smaller. *)
Definition sf_at_least (m1 : positive) (e1 : Z) (r : spec_float) : Prop :=
  match r with
  | S754_finite s m e =>
      s = false /\ ((e1 < e)%Z \/ (e = e1 /\ (Zpos m1 <= Zpos m)%Z))
  | S754_infinity s => s = false
  | S754_zero _ | S754_nan => False
  end.

(** [r] is a number that is not negative: a zero, positive or [+inf]. *)
Definition sf_nonneg (r : spec_float) : Prop :=
  match r with
  | S754_finite s _ _ | S754_infinity s => s = false
  | S754_zero _ => True
  | S754_nan => False
  end.

(** [r] is a number whose sign bit is clear: [+0], positive or [+inf]. *)
Definition sf_clear (r : spec_float) : Prop :=
  match r with
  | S754_finite s _ _ | S754_infinity s | S754_zero s => s = false
  | S754_nan => False
  end.

(** [r] is positive and finite. *)
Definition sf_pos_finite (r : spec_float) : Prop :=
  match r with
  | S754_finite s _ _ => s = false
  | _ => False
  end.

(** [r] is not a negative number: NaN, a zero, positive or [+inf]. *)
Definition sf_not_negative (r : spec_float) : Prop :=
  match r with
  | S754_finite s _ _ | S754_infinity s => s = false
  | S754_zero _ | S754_nan => True
  end.

(** [r] is NaN or a positive number: what a clamp at [DBL_MIN] leaves. *)
Definition sf_clamped (r : spec_float) : Prop :=
  match r with
  | S754_finite s _ _ | S754_infinity s => s = false
  | S754_nan => True
  | S754_zero _ => False
  end.

(** *** The order of the doubles, read on integers

    [rank] maps the doubles that are numbers to integers, in order: the
    mantissa of a double has at most 53 bits and its exponent is at
    least [-1074], so that [(e + 1075) * 2^53 + m] orders the positive
    doubles as [(e, m)] does. *)
Definition rank (f : spec_float) : Z :=
  match f with
  | S754_zero _ | S754_nan => 0
  | S754_finite s m e =>
      let k := ((e + 1075) * 2 ^ 53 + Zpos m)%Z in if s then (- k)%Z else k
  | S754_infinity s => if s then (- 2 ^ 64)%Z else (2 ^ 64)%Z
  end.

End Double.

(** ** The kernels *)

Module Pgm.

Import Double.
Local Open Scope float_scope.

(** *** [pgm_lgamma]: the table (lines 129-197) *)

Definition logfactorial : list float := [
    0.000000000000000; 0.0000000000000000; 0.69314718055994529; 1.791759469228055;
    3.1780538303479458; 4.7874917427820458; 6.5792512120101012; 8.5251613610654147;
    10.604602902745251; 12.801827480081469; 15.104412573075516; 17.502307845873887;
    19.987214495661885; 22.552163853123425; 25.19122118273868; 27.89927138384089;
    30.671860106080672; 33.505073450136891; 36.395445208033053; 39.339884187199495;
    42.335616460753485; 45.380138898476908; 48.471181351835227; 51.606675567764377;
    54.784729398112319; 58.003605222980518; 61.261701761002001; 64.557538627006338;
    67.88974313718154; 71.257038967168015; 74.658236348830158; 78.092223553315307;
    81.557959456115043; 85.054467017581516; 88.580827542197682; 92.136175603687093;
    95.719694542143202; 99.330612454787428; 102.96819861451381; 106.63176026064346;
    110.32063971475739; 114.03421178146171; 117.77188139974507; 121.53308151543864;
    125.3172711493569; 129.12393363912722; 132.95257503561632; 136.80272263732635;
    140.67392364823425; 144.5657439463449; 148.47776695177302; 152.40959258449735;
    156.3608363030788; 160.3311282166309; 164.32011226319517; 168.32744544842765;
    172.35279713916279; 176.39584840699735; 180.45629141754378; 184.53382886144948;
    188.6281734236716; 192.7390472878449; 196.86618167289001; 201.00931639928152;
    205.1681994826412; 209.34258675253685; 213.53224149456327; 217.73693411395422;
    221.95644181913033; 226.1905483237276; 230.43904356577696; 234.70172344281826;
    238.97838956183432; 243.26884900298271; 247.57291409618688; 251.89040220972319;
    256.22113555000954; 260.56494097186322; 264.92164979855278; 269.29109765101981;
    273.67312428569369; 278.06757344036612; 282.4742926876304; 286.89313329542699;
    291.32395009427029; 295.76660135076065; 300.22094864701415; 304.68685676566872;
    309.1641935801469; 313.65282994987905; 318.1526396202093; 322.66349912672615;
    327.1852877037752; 331.71788719692847; 336.26118197919845; 340.81505887079902;
    345.37940706226686; 349.95411804077025; 354.53908551944079; 359.1342053695754;
    363.73937555556347; 368.35449607240474; 372.97946888568902; 377.61419787391867;
    382.25858877306001; 386.91254912321756; 391.57598821732961; 396.24881705179155;
    400.93094827891576; 405.6222961611449; 410.32277652693733; 415.03230672824964;
    419.75080559954472; 424.47819341825709; 429.21439186665157; 433.95932399501481;
    438.71291418612117; 443.47508812091894; 448.24577274538461; 453.02489623849613;
    457.81238798127816; 462.60817852687489; 467.4121995716082; 472.22438392698058;
    477.04466549258564; 481.87297922988796; 486.70926113683936; 491.55344822329801;
    496.40547848721764; 501.26529089157924; 506.13282534203483; 511.00802266523596;
    515.89082458782241; 520.78117371604412; 525.67901351599517; 530.58428829443358;
    535.49694318016952; 540.41692410599762; 545.34417779115483; 550.27865172428551;
    555.22029414689484; 560.16905403727310; 565.12488109487424; 570.08772572513419;
    575.05753902471020; 580.03427276713080; 585.01787938883899; 590.00831197561786;
    595.00552424938201; 600.00947055532743; 605.02010584942377; 610.03738568623862;
    615.06126620708494; 620.09170412847732; 625.12865673089095; 630.17208184781020;
    635.22193785505965; 640.27818366040810; 645.34077869343503; 650.40968289565524;
    655.48485671088906; 660.56626107587351; 665.65385741110595; 670.74760761191271;
    675.84747403973688; 680.95341951363753; 686.06540730199413; 691.18340111441080;
    696.30736509381404; 701.43726380873704; 706.57306224578736; 711.71472580228999;
    716.86222027910355; 722.01551187360133; 727.17456717281584; 732.33935314673920;
    737.50983714177733; 742.68598687435122; 747.86777042464337; 753.05515623048404;
    758.24811308137441; 763.44661011264009; 768.65061679971711; 773.86010295255835;
    779.07503871016729; 784.29539453524569; 789.52114120895885; 794.75224982581346;
    799.98869178864345; 805.23043880370301; 810.47746287586358; 815.72973630391016;
    820.98723167593789; 826.24992186484292; 831.51778002390620; 836.79077958246978;
    842.06889424170038; 847.35209797043842; 852.64036500113298; 857.93366982585735
].

Section Kernels.

Variable M : libm.

(** *** [pgm_erfc] (lines 34-99)

    The function calls itself on [-x] in its second branch; [fuel] bounds
    the depth of the calls. *)

Definition PGM_1_SQRTPI : float := 0.5641895835477563.
Definition PGM_BIG_VAL : float := 26.615717509251258.
Definition PGM_SMALL_VAL : float := -6.003636680306125.

Fixpoint pgm_erfc_rec (fuel : nat) (x : float) : option float :=
  match fuel with
  | O => None
  | S fuel =>
    if x <? PGM_SMALL_VAL then Some 2
    else if x <? - DBL_EPSILON then
      y <- pgm_erfc_rec fuel (- x) ;; Some (2 - y)
    else if x <? DBL_EPSILON then Some 1
    else if x <? 0.5 then
      let p0 := 3.20937758913846947e+03 in
      let p1 := 3.77485237685302021e+02 in
      let p2 := 1.13864154151050156e+02 in
      let p3 := 3.16112374387056560e+00 in
      let p4 := 1.85777706184603153e-01 in
      let q0 := 2.84423683343917062e+03 in
      let q1 := 1.28261652607737228e+03 in
      let q2 := 2.44024637934444173e+02 in
      let q3 := 2.36012909523441209e+01 in
      let z := x * x in
      Some (1 - x * ((((p4 * z + p3) * z + p2) * z + p1) * z + p0) /
                    ((((z + q3) * z + q2) * z + q1) * z + q0))
    else if x <? 4 then
      let p0 := 7.3738883116 in
      let p1 := 6.8650184849 in
      let p2 := 3.0317993362 in
      let p3 := 5.6316961891e-01 in
      let p4 := 4.3187787405e-05 in
      let q0 := 7.3739608908 in
      let q1 := 1.5184908190e+01 in
      let q2 := 1.2795529509e+01 in
      let q3 := 5.3542167949 in
      Some (exp M (- x * x) * ((((p4 * x + p3) * x + p2) * x + p1) * x + p0) /
                               ((((x + q3) * x + q2) * x + q1) * x + q0))
    else if x <? PGM_BIG_VAL then
      let z := x * x in
      let y := exp M (- z) in
      if y * PGM_1_SQRTPI <? x * DBL_MIN then Some 0
      else
        let p0 := -4.25799643553e-02 in
        let p1 := -1.96068973726e-01 in
        let p2 := -5.16882262185e-02 in
        let q0 := 1.50942070545e-01 in
        let q1 := 9.21452411694e-01 in
        let z := 1 / z in
        let z := z * (((p2 * z + p1) * z + p0) / ((z + q1) * z + q0)) in
        Some (y * (PGM_1_SQRTPI + z) / x)
    else Some 0
  end.

(** Two levels of calls are all [pgm_erfc] ever makes (see
    [pgm_erfc_rec_fuel]). *)
Definition pgm_erfc (x : float) : option float := pgm_erfc_rec 2 x.

(** *** [pgm_lgamma] (lines 125-267) *)

(** [z < 201 && z == (size_t)z]: the conversion is evaluated only when
    the first operand holds. *)
Definition lgamma_lookup_guard (z : float) : option bool :=
  if z <? 201 then n <- to_size_t z ;; Some (z =? of_size_t n)
  else Some false.

(** The index [(size_t)z - 1], computed in [size_t]. *)
Definition lgamma_index (n : Z) : Z := ((n - 1) mod 2 ^ 64)%Z.

(** [logfactorial[i]]: a read outside the 200 entries is undefined. *)
Definition logfactorial_at (i : Z) : option float :=
  if ((0 <=? i) && (i <? 200))%Z then nth_error logfactorial (Z.to_nat i)
  else None.

Definition pgm_lgamma (z : float) : option float :=
  g <- lgamma_lookup_guard z ;;
  if g then
    n <- to_size_t z ;;
    logfactorial_at (lgamma_index n)
  else if 12 <? z then
    let a1 := 0.08333333333333333 in
    let a2 := 0.002777777777777778 in
    let a3 := 0.0007936507936507937 in
    let z2 := z * z in
    let out := (z - 0.5) * log M z - z + PGM_LS2PI in
    let out := out + (a1 / z - a2 / (z2 * z) + a3 / (z2 * z2 * z)) in
    Some out
  else if 4 <=? z then
    let p0 := -2.12159572323e+05 in
    let p1 := 2.30661510616e+05 in
    let p2 := 2.74647644705e+04 in
    let p3 := -4.02621119975e+04 in
    let p4 := -2.29660729780e+03 in
    let q0 := -1.16328495004e+05 in
    let q1 := -1.46025937511e+05 in
    let q2 := -2.42357409629e+04 in
    let q3 := -5.70691009324e+02 in
    Some (((((p4 * z + p3) * z + p2) * z + p1) * z + p0) /
          ((((z + q3) * z + q2) * z + q1) * z + q0))
  else if 1.5 <? z then
    let p0 := -7.83359299449e+01 in
    let p1 := -1.42046296688e+02 in
    let p2 := 1.37519416416e+02 in
    let p3 := 7.86994924154e+01 in
    let p4 := 4.16438922228 in
    let q0 := 4.70668766060e+01 in
    let q1 := 3.13399215894e+02 in
    let q2 := 2.63505074721e+02 in
    let q3 := 4.33400022514e+01 in
    Some ((z - 2) * ((((p4 * z + p3) * z + p2) * z + p1) * z + p0) /
                     ((((z + q3) * z + q2) * z + q1) * z + q0))
  else
    let p0 := -2.66685511495 in
    let p1 := -2.44387534237e+01 in
    let p2 := -2.19698958928e+01 in
    let p3 := 1.11667541262e+01 in
    let p4 := 3.13060547623 in
    let q0 := 6.07771387771e-01 in
    let q1 := 1.19400905721e+01 in
    let q2 := 3.14690115749e+01 in
    let q3 := 1.52346874070e+01 in
    if 0.5 <=? z then
      Some ((z - 1) * ((((p4 * z + p3) * z + p2) * z + p1) * z + p0) /
                       ((((z + q3) * z + q2) * z + q1) * z + q0))
    else if DBL_EPSILON <? z then
      let x := z + 1 in
      Some (z * ((((p4 * x + p3) * x + p2) * x + p1) * x + p0) /
                 ((((x + q3) * x + q2) * x + q1) * x + q0) - log M z)
    else if DBL_MIN <? z then Some (- log M z)
    else Some PGM_MAX_EXP.

(** *** The continued fractions (lines 336-420)

    Both loops run the same update of the modified Lentz method on the
    continuants [c], [d] and the partial value [f] (lines 348-360 and
    402-414); [lentz_update] is that shared text.  It returns the new
    [c], [d], [f] and the step's [delta]. *)

Definition lentz_update (a b c d f : float) : float * float * float * float :=
  let c := b + a / c in
  let c := if c <? DBL_MIN then DBL_MIN else c in
  let d := a * d + b in
  let d := if d <? DBL_MIN then DBL_MIN else d in
  let d := 1 / d in
  let delta := c * d in
  let f := f * delta in
  (c, d, f, delta).

(** The test of lines 361 and 415 that leaves the loop. *)
Definition lentz_converged (delta : float) : bool :=
  fabs (delta - 1) <? PGM_CONFLUENT_EPSILON.

(** The loop of [confluent_x_smaller], from the test [n < 100] on.  The
    list collects the [delta] of every iteration run, the latest first; it
    is a ghost of the model and is not read by the loop. *)
Fixpoint x_smaller_loop (fuel : nat) (r s : float) (n : Z)
    (b c d f : float) (deltas : list float) : option (float * list float) :=
  match fuel with
  | O => None
  | S fuel =>
    if (n <? 100)%Z then
      let a := if (Z.land n 1 =? 0)%Z then r - s * of_size_t n
               else s * of_size_t (n - 1) in
      let b := b + 1 in
      let '(c, d, f, delta) := lentz_update a b c d f in
      if lentz_converged delta then Some (f, delta :: deltas)
      else x_smaller_loop fuel r s (n + 1) b c d f (delta :: deltas)
    else Some (f, deltas)
  end.

Definition confluent_x_smaller_run (fuel : nat) (p x : float)
    : option (float * list float) :=
  let a := 1 in
  let b := p in
  let r := - (p - 1) * x in
  let s := 0.5 * x in
  x_smaller_loop fuel r s 2 b (a / DBL_MIN) (1 / b) (a / b) [].

(** The loop of [confluent_p_smaller]. *)
Fixpoint p_smaller_loop (fuel : nat) (p : float) (n : Z)
    (b c d f : float) (deltas : list float) : option (float * list float) :=
  match fuel with
  | O => None
  | S fuel =>
    if (n <? 100)%Z then
      let a := of_size_t n * (p - of_size_t n) in
      let b := b + 2 in
      let '(c, d, f, delta) := lentz_update a b c d f in
      if lentz_converged delta then Some (f, delta :: deltas)
      else p_smaller_loop fuel p (n + 1) b c d f (delta :: deltas)
    else Some (f, deltas)
  end.

Definition confluent_p_smaller_run (fuel : nat) (p x : float)
    : option (float * list float) :=
  let a := 1 in
  let b := x - p + 1 in
  p_smaller_loop fuel p 1 b (a / DBL_MIN) (1 / b) (a / b) [].

(** One unit of fuel per evaluation of the loop test: [LENTZ_FUEL] covers
    every run (see [confluent_x_smaller_total], [confluent_p_smaller_total]). *)
Definition LENTZ_FUEL : nat := 100.

Definition confluent_x_smaller (p x : float) : option float :=
  r <- confluent_x_smaller_run LENTZ_FUEL p x ;; Some (fst r).

Definition confluent_p_smaller (p x : float) : option float :=
  r <- confluent_p_smaller_run LENTZ_FUEL p x ;; Some (fst r).

(** *** [pgm_gammaq] (lines 446-495) *)

(** A [for] loop whose counter [k] the body does not write: [count]
    iterations from [k] on. *)
Fixpoint for_loop {S : Type} (count : nat) (k : Z) (body : Z -> S -> S)
    (s : S) : S :=
  match count with
  | O => s
  | S count => for_loop count (k + 1)%Z body (body k s)
  end.

(** Lines 454-456: [for (k = sum = r = 1; k < p_int; k++) sum += (r *= x / k)];
    the state is [(sum, r)]. *)
Definition gammaq_integer_series (x : float) (p_int : Z) : float :=
  fst (for_loop (Z.to_nat (p_int - 1)) 1
         (fun k '(sum, r) => let r := r * (x / of_size_t k) in (sum + r, r))
         (1, 1)).

(** Lines 464-466:
    [for (k = r = 1, sum = 0; k < p_int + 1; k++) sum += (r *= x / (k - 0.5))]. *)
Definition gammaq_half_integer_series (x : float) (p_int : Z) : float :=
  fst (for_loop (Z.to_nat ((p_int + 1) mod 2 ^ 64 - 1)) 1
         (fun k '(sum, r) =>
            let r := r * (x / (of_size_t k - 0.5)) in (sum + r, r))
         (0, 1)).

(** Lines 471-494: the evaluation by continued fraction, reached when no
    closed form applies. *)
Definition gammaq_continued_fraction (p x : float) (normalized : bool)
    : option float :=
  let x_smaller := x <=? p in
  f <- (if x_smaller then confluent_x_smaller p x
        else confluent_p_smaller p x) ;;
  if normalized then
    lgam <- pgm_lgamma p ;;
    let out := f * exp M (- x + p * log M x - lgam) in
    Some (if x_smaller then 1 - out else out)
  else if x_smaller then
    lgam <- pgm_lgamma p ;;
    let exp_lgam := if PGM_MAX_EXP <=? lgam then exp M PGM_MAX_EXP
                    else exp M lgam in
    let arg := - x + p * log M x - lgam in
    let arg := if PGM_MAX_EXP <=? arg then PGM_MAX_EXP
               else if arg <=? - PGM_MAX_EXP then - PGM_MAX_EXP
               else arg in
    Some ((1 - f * exp M arg) * exp_lgam)
  else
    let arg := - x + p * log M x in
    Some (f * (if PGM_MAX_EXP <=? arg then exp M PGM_MAX_EXP else exp M arg)).

Definition pgm_gammaq (p x : float) (normalized : bool) : option float :=
  if normalized then
    p_int <- to_size_t p ;;
    if (p =? of_size_t p_int) && (p <? 30) then
      let sum := gammaq_integer_series x p_int in
      Some (exp M (- x) * sum)
    else if (p =? of_size_t p_int + 0.5) && (p <? 30) then
      let one_sqrtpi := 0.5641895835477563 in
      let sqrt_x := sqrt x in
      let sum := gammaq_half_integer_series x p_int in
      e <- pgm_erfc sqrt_x ;;
      Some (e + exp M (- x) * one_sqrtpi * sum / sqrt_x)
    else gammaq_continued_fraction p x normalized
  else gammaq_continued_fraction p x normalized.

End Kernels.

(** *** Notions used in the statements below (none is source text) *)

(** A double that is neither a number nor finite: NaN or an infinity. *)
Definition not_finite (x : float) : Prop :=
  Prim2SF x = S754_nan \/ exists s, Prim2SF x = S754_infinity s.

(** [|a - b| <= tol], as a C test would compute it. *)
Definition agree_within (tol a b : float) : bool := fabs (a - b) <=? tol.

(** The iteration did not pass the test that leaves a Lentz loop. *)
Definition not_converged (delta : float) : bool := negb (lentz_converged delta).

(** What a list of deltas (latest first) of a loop of at most [cap]
    iterations looks like: no delta before the last one passed the
    convergence test, and the last one passed it unless the loop ran
    all of its [cap] iterations. *)
Definition lentz_trace_ok (cap : nat) (deltas : list float) : bool :=
  match deltas with
  | [] => Nat.eqb cap 0
  | d :: ds =>
      forallb not_converged ds &&
      (lentz_converged d || Nat.eqb (length deltas) cap)
  end.

(** [f0 * d1 * ... * dk] for the deltas [dk; ...; d1]: the partial value
    of the continued fraction after [k] iterations. *)
Definition lentz_product (f0 : float) (deltas : list float) : float :=
  fold_right (fun d acc => acc * d) f0 deltas.

(** The two clamps of the branches of [pgm_gammaq] that are not
    normalized: lines 483-488, and the test of lines 480 and 493. *)
Definition clamp_both (arg : float) : float :=
  if PGM_MAX_EXP <=? arg then PGM_MAX_EXP
  else if arg <=? - PGM_MAX_EXP then - PGM_MAX_EXP
  else arg.

Definition clamp_above (arg : float) : float :=
  if PGM_MAX_EXP <=? arg then PGM_MAX_EXP else arg.

(** [-PGM_MAX_EXP <= a <= PGM_MAX_EXP]. *)
Definition in_exp_range (a : float) : bool :=
  (- PGM_MAX_EXP <=? a) && (a <=? PGM_MAX_EXP).

End Pgm.

(** ** The sampler [random_left_bounded_gamma] (lines 279-309)

    The sampler is written over the record of the operations it uses;
    [binary64 M] instantiates that record with the doubles and the
    platform's [libm], which is what the C code computes. *)

Module Sampler.

(** The operations the sampler uses, with C's names. *)
Record arith : Type := {
  num : Type;
  add : num -> num -> num;
  sub : num -> num -> num;
  mul : num -> num -> num;
  div : num -> num -> num;
  neg : num -> num;
  sqrt : num -> num;
  log : num -> num;
  log1p : num -> num;
  gt : num -> num -> bool;
  eq : num -> num -> bool;
  one : num;
  half : num;
  four : num
}.

(** The generator handle [bitgen_t *] with the two draws of
    [numpy/random/distributions.h]: each returns its variate and the
    state it leaves the generator in. *)
Record bitgen (A : arith) : Type := {
  bitgen_t : Type;
  random_standard_exponential : bitgen_t -> num A * bitgen_t;
  random_standard_uniform : bitgen_t -> num A * bitgen_t
}.

Arguments bitgen_t {A} _.
Arguments random_standard_exponential {A} _ _.
Arguments random_standard_uniform {A} _ _.

Declare Scope num_scope.
Delimit Scope num_scope with num.
Notation "x + y" := (add _ x y) : num_scope.
Notation "x - y" := (sub _ x y) : num_scope.
Notation "x * y" := (mul _ x y) : num_scope.
Notation "x / y" := (div _ x y) : num_scope.
Notation "- x" := (neg _ x) : num_scope.
Notation "x >? y" := (gt _ x y) (at level 70, no associativity) : num_scope.
Notation "x ==? y" := (eq _ x y) (at level 70, no associativity) : num_scope.

Section Sampler.

Context {A : arith} (G : bitgen A).

Local Open Scope num_scope.

(** The [do ... while] loop of the branch [a > 1] (lines 291-294): one
    unit of fuel per iteration. *)
Fixpoint dagpunar_loop (fuel : nat) (b c0 amin1 one_minus_c0 log_m : num A)
    (st : bitgen_t G) : option (num A * bitgen_t G) :=
  match fuel with
  | O => None
  | S fuel =>
    let (e, st) := random_standard_exponential G st in
    let x := b + e / c0 in
    let threshold := amin1 * log A x - x * one_minus_c0 - log_m in
    let (u, st) := random_standard_uniform G st in
    if log1p A (- u) >? threshold
    then dagpunar_loop fuel b c0 amin1 one_minus_c0 log_m st
    else Some (x, st)
  end.

(** The [do ... while] loop of the branch [a < 1] (lines 304-306). *)
Fixpoint philippe_loop (fuel : nat) (amin1 tb : num A) (st : bitgen_t G)
    : option (num A * bitgen_t G) :=
  match fuel with
  | O => None
  | S fuel =>
    let (e, st) := random_standard_exponential G st in
    let x := one A + e / tb in
    let (u, st) := random_standard_uniform G st in
    if log1p A (- u) >? amin1 * log A x
    then philippe_loop fuel amin1 tb st
    else Some (x, st)
  end.

Definition random_left_bounded_gamma (fuel : nat) (st : bitgen_t G)
    (a b t : num A) : option (num A * bitgen_t G) :=
  if a >? one A then
    let b := t * b in
    let amin1 := a - one A in
    let bmina := b - a in
    let c0 := half A * (bmina + sqrt A ((bmina * bmina) + four A * b)) / b in
    let one_minus_c0 := one A - c0 in
    let log_m := amin1 * (log A (amin1 / one_minus_c0) - one A) in
    r <- dagpunar_loop fuel b c0 amin1 one_minus_c0 log_m st ;;
    let (x, st) := r in
    Some (t * (x / b), st)
  else if a ==? one A then
    let (e, st) := random_standard_exponential G st in
    Some (t + e / b, st)
  else
    let amin1 := a - one A in
    let tb := t * b in
    r <- philippe_loop fuel amin1 tb st ;;
    let (x, st) := r in
    Some (t * x, st).

End Sampler.

(** *** The arithmetic of the C code *)

(** Binary64 with the platform's [libm]: the arithmetic of the C code. *)
Definition binary64 (M : Double.libm) : arith := {|
  num := float;
  add := PrimFloat.add;
  sub := PrimFloat.sub;
  mul := PrimFloat.mul;
  div := PrimFloat.div;
  neg := PrimFloat.opp;
  sqrt := Double.sqrt;
  log := Double.log M;
  log1p := Double.log1p M;
  gt := fun x y => PrimFloat.ltb y x;
  eq := PrimFloat.eqb;
  one := 1%float;
  half := 0.5%float;
  four := 4%float
|}.

(** *** Generators used to observe a run *)

(** [counting G] is [G] with two counters beside its state: the draws of
    each kind made so far. *)
Definition counting {A : arith} (G : bitgen A) : bitgen A := {|
  bitgen_t := bitgen_t G * (nat * nat);
  random_standard_exponential := fun '(st, (ne, nu)) =>
    let (e, st) := random_standard_exponential G st in (e, (st, (S ne, nu)));
  random_standard_uniform := fun '(st, (ne, nu)) =>
    let (u, st) := random_standard_uniform G st in (u, (st, (ne, S nu)))
|}.

(** [replay A d] hands out the variates of a tape, one per draw of either
    kind, and [d] once the tape is empty. *)
Definition replay (A : arith) (d : num A) : bitgen A := {|
  bitgen_t := list (num A);
  random_standard_exponential := fun tape =>
    match tape with
    | [] => (d, [])
    | v :: tape => (v, tape)
    end;
  random_standard_uniform := fun tape =>
    match tape with
    | [] => (d, [])
    | v :: tape => (v, tape)
    end
|}.

(** [constant A e u] draws [e] and [u] for ever. *)
Definition constant (A : arith) (e u : num A) : bitgen A := {|
  bitgen_t := unit;
  random_standard_exponential := fun _ => (e, tt);
  random_standard_uniform := fun _ => (u, tt)
|}.

(** *** Notions used in the statements below (none is source text) *)

(** The branch of [random_left_bounded_gamma] a shape [a] selects. *)
Inductive regime : Type := Dagpunar | Exponential | Philippe.

Definition sampler_regime {A : arith} (a : num A) : regime :=
  if (a >? one A)%num then Dagpunar
  else if (a ==? one A)%num then Exponential
  else Philippe.

(** The proposal rate [c0] of the branch [a > 1] (line 287, with [b]
    rescaled as at line 283). *)
Definition dagpunar_rate {A : arith} (a b t : num A) : num A :=
  (let b := t * b in
   let bmina := b - a in
   half A * (bmina + sqrt A ((bmina * bmina) + four A * b)) / b)%num.


End Sampler.

(** ** A reference [libm]

    An instance of the interface [libm], used where a run has to be
    evaluated on concrete numbers.  Each function treats the special
    values as Annex F of the C standard requires ([exp(-0) = 1],
    [exp(-inf) = +0], [log(+0) = -inf], ...) and is accurate to a few
    units in the last place elsewhere. *)

Module RefLibm.

Import Double.
Local Open Scope float_scope.

Definition LN2_HI : float := 0x1.62e42feep-1.
Definition LN2_LO : float := 0x1.a39ef35793c76p-33.
Definition INV_LN2 : float := 0x1.71547652b82fep+0.

(** The integer part of a finite double ([0] for the others). *)
Definition truncate (x : float) : Z :=
  match SFtrunc (Prim2SF x) with
  | Some v => v
  | None => 0%Z
  end.

(** [sum_{i <= 14} r^i / i!], by Horner's rule. *)
Definition exp_poly (r : float) : float :=
  fold_right (fun i acc => 1 + r / of_Z i * acc) 1
    (map Z.of_nat (seq 1 14)).

Definition ref_exp (x : float) : float :=
  if is_nan x then nan
  else if x <? -746 then 0
  else if 710 <? x then infinity
  else
    let k := truncate (x * INV_LN2 + (if x <? 0 then -0.5 else 0.5)) in
    let r := x - of_Z k * LN2_HI - of_Z k * LN2_LO in
    Z.ldexp (exp_poly r) k.

(** [2 * atanh s = sum_{i <= 12} 2 s^(2i+1) / (2i+1)], by Horner's rule. *)
Definition atanh2_poly (s : float) : float :=
  let s2 := s * s in
  s * fold_right (fun i acc => 2 / of_Z (2 * i + 1) + s2 * acc) 0
        (map Z.of_nat (seq 0 13)).

Definition ref_log (x : float) : float :=
  if is_nan x then nan
  else if x <? 0 then nan
  else if x =? 0 then neg_infinity
  else if x =? infinity then infinity
  else
    let (m, e) := Z.frexp x in
    let '(m, e) := if m <? 0x1.6a09e667f3bcdp-1 then (m * 2, (e - 1)%Z)
                   else (m, e) in
    let s := (m - 1) / (m + 1) in
    of_Z e * LN2_HI + (atanh2_poly s + of_Z e * LN2_LO).

Definition ref_log1p (x : float) : float :=
  let u := 1 + x in
  if u =? 1 then x else ref_log u * x / (u - 1).

Definition ref_libm : libm := {|
  exp := ref_exp;
  log := ref_log;
  log1p := ref_log1p
|}.

End RefLibm.

(** ** A generator for concrete runs

    Binary64 arithmetic with the reference [libm], the draws read from a
    tape. *)

Definition tape64 : Sampler.bitgen (Sampler.binary64 RefLibm.ref_libm) :=
  Sampler.replay (Sampler.binary64 RefLibm.ref_libm) 0%float.

(** * Properties *)

(** ** Facts on binary64 comparisons and special values

    Each fact is read off the specification [SpecFloat] of the primitive
    operations. *)

Module FloatFacts.

Import Double.
Local Open Scope float_scope.

Lemma Prim2SF_nan (x : float) : Prim2SF x = S754_nan -> x = nan.
Proof. intros H. apply Prim2SF_inj. rewrite H. reflexivity. Qed.

Lemma is_nan_Prim2SF (a : float) : is_nan a = false -> Prim2SF a <> S754_nan.
Proof.
  unfold is_nan. rewrite eqb_spec. intros H E. rewrite E in H. discriminate.
Qed.

(** *** The order *)

Lemma SFcompare_antisym (x y : spec_float) :
  SFcompare y x = option_map CompOpp (SFcompare x y).
Proof.
  destruct x as [sx|sx| |sx mx ex], y as [sy|sy| |sy my ey];
    try reflexivity; try (destruct sx; reflexivity);
    try (destruct sy; reflexivity); try (destruct sx, sy; reflexivity).
  unfold SFcompare, option_map. f_equal.
  pose proof (Pos.compare_cont_antisym mx my Eq) as Hm. cbn [CompOpp] in Hm.
  destruct sx, sy; try reflexivity;
    rewrite (Z.compare_antisym ex ey);
    destruct (ex ?= ey)%Z; cbn [CompOpp]; try reflexivity.
  - rewrite <- Hm. now rewrite CompOpp_involutive.
  - now rewrite <- Hm.
Qed.

Lemma SFcompare_none (x y : spec_float) :
  SFcompare x y = None -> x = S754_nan \/ y = S754_nan.
Proof.
  destruct x as [sx|sx| |sx mx ex], y as [sy|sy| |sy my ey];
    try discriminate; auto.
Qed.

(** On numbers, [a <= b] fails only when [b < a]. *)
Lemma leb_false_ltb (a b : float) :
  is_nan a = false -> is_nan b = false -> (a <=? b) = false -> (b <? a) = true.
Proof.
  intros Ha Hb. apply is_nan_Prim2SF in Ha, Hb.
  rewrite leb_spec, ltb_spec. unfold SFleb, SFltb.
  rewrite (SFcompare_antisym (Prim2SF a) (Prim2SF b)).
  destruct (SFcompare (Prim2SF a) (Prim2SF b)) as [[]|] eqn:E;
    try discriminate; try reflexivity.
  apply SFcompare_none in E. tauto.
Qed.

Lemma ltb_leb (a b : float) : (a <? b) = true -> (a <=? b) = true.
Proof.
  rewrite leb_spec, ltb_spec. unfold SFleb, SFltb.
  destruct (SFcompare _ _) as [[]|]; congruence.
Qed.

Lemma SFltb_zero_l (f : spec_float) :
  SFltb (S754_zero false) f = true ->
  f = S754_infinity false \/ exists m e, f = S754_finite false m e.
Proof.
  destruct f as [s|[|]| |[|] m e]; try discriminate; eauto.
Qed.

Lemma SFltb_finite_pos (m : positive) (e : Z) (m' : positive) (e' : Z) :
  SFltb (S754_finite false m e) (S754_finite false m' e') = true ->
  (e < e')%Z \/ (e = e' /\ (Zpos m < Zpos m')%Z).
Proof.
  unfold SFltb, SFcompare.
  destruct (Z.compare_spec e e') as [He|He|He]; try discriminate; [|now left].
  change (Pos.compare_cont Eq m m') with (Pos.compare m m').
  destruct (Pos.compare_spec m m') as [Hm|Hm|Hm]; try discriminate.
  right. split; [assumption | apply Pos2Z.pos_lt_pos, Hm].
Qed.

(** Below a negative constant there are only negative numbers. *)
Lemma ltb_neg_const (x c : float) (m : positive) (e : Z) :
  Prim2SF c = S754_finite true m e ->
  (x <? c) = true ->
  Prim2SF x = S754_infinity true \/
  exists m' e', Prim2SF x = S754_finite true m' e'.
Proof.
  intros Hc. rewrite ltb_spec, Hc. unfold SFltb.
  destruct (Prim2SF x) as [s|s| |s m' e']; try discriminate.
  - destruct s; [eauto | discriminate].
  - destruct s; [eauto | discriminate].
Qed.

Lemma ltb_pos_neg_const (y c : float) (m : positive) (e : Z) :
  Prim2SF c = S754_finite true m e ->
  (Prim2SF y = S754_infinity false \/
   exists m' e', Prim2SF y = S754_finite false m' e') ->
  (y <? c) = false.
Proof.
  intros Hc Hy. rewrite ltb_spec, Hc.
  destruct Hy as [-> | (m' & e' & ->)]; reflexivity.
Qed.

Lemma opp_of_negative (x : float) :
  (Prim2SF x = S754_infinity true \/
   exists m e, Prim2SF x = S754_finite true m e) ->
  Prim2SF (- x) = S754_infinity false \/
  exists m e, Prim2SF (- x) = S754_finite false m e.
Proof.
  rewrite opp_spec. intros [-> | (m & e & ->)]; cbn; eauto.
Qed.

(** [x == y] on a finite nonzero [x] is equality of the two doubles. *)
Lemma eqb_finite_eq (x y : float) (s : bool) (m : positive) (e : Z) :
  (x =? y) = true -> Prim2SF x = S754_finite s m e -> x = y.
Proof.
  rewrite eqb_spec. intros H Hx. apply Prim2SF_inj. rewrite Hx in *.
  unfold SFeqb in H.
  destruct (Prim2SF y) as [s'|s'| |s' m' e'].
  - destruct s; discriminate.
  - destruct s'; discriminate.
  - discriminate.
  - cbn in H. destruct s, s'; try discriminate;
      destruct (Z.compare_spec e e') as [He|He|He]; try discriminate; subst e';
      destruct (Pos.compare_cont Eq m m') eqn:Hm; try discriminate;
      apply Pos.compare_eq in Hm; now subst.
Qed.

(** *** Mantissas *)

Lemma digits2_pos_bound (m : positive) : (Zpos m < 2 ^ Zpos (digits2_pos m))%Z.
Proof.
  induction m as [m IH|m IH|]; cbn [digits2_pos].
  - rewrite Pos2Z.inj_succ, Z.pow_succ_r by lia. lia.
  - rewrite Pos2Z.inj_succ, Z.pow_succ_r by lia. lia.
  - reflexivity.
Qed.

(** The mantissa of a double has at most 53 bits. *)
Lemma Prim2SF_mantissa_bound (z : float) (s : bool) (m : positive) (e : Z) :
  Prim2SF z = S754_finite s m e -> (Zpos m < 2 ^ 53)%Z.
Proof.
  intros Hz. pose proof (Prim2SF_valid z) as H. rewrite Hz in H.
  cbn [SpecFloat.valid_binary] in H.
  unfold SpecFloat.bounded, SpecFloat.canonical_mantissa, SpecFloat.fexp in H.
  apply andb_prop in H as [H _]. apply Z.eqb_eq in H.
  pose proof (digits2_pos_bound m) as Hd.
  assert (Hle : (Zpos (digits2_pos m) <= 53)%Z) by (unfold prec in H; lia).
  eapply Z.lt_le_trans; [exact Hd|]. apply Z.pow_le_mono_r; lia.
Qed.

(** *** Products and quotients with [0] and [inf] *)

Lemma mul_zero_cases (w : float) :
  Prim2SF (w * 0) = S754_nan \/ exists s, Prim2SF (w * 0) = S754_zero s.
Proof.
  rewrite mul_spec. change (Prim2SF 0) with (S754_zero false).
  destruct (Prim2SF w) as [s|s| |s m e]; cbn; eauto.
Qed.

Lemma zero_div_zero (y : float) :
  (Prim2SF y = S754_nan \/ exists s, Prim2SF y = S754_zero s) -> y / 0 = nan.
Proof.
  intros H. apply Prim2SF_nan. rewrite div_spec.
  change (Prim2SF 0) with (S754_zero false).
  destruct H as [-> | [s ->]]; reflexivity.
Qed.

Lemma add_nan_r (x : float) : x + nan = nan.
Proof.
  apply Prim2SF_nan. rewrite add_spec. change (Prim2SF nan) with S754_nan.
  destruct (Prim2SF x); reflexivity.
Qed.

(** [e + v * c * 0 / 0] is NaN whatever [e], [v] and [c] are. *)
Lemma zero_over_zero_term (e v c : float) : e + v * c * 0 / 0 = nan.
Proof. rewrite (zero_div_zero _ (mul_zero_cases _)). apply add_nan_r. Qed.

Lemma mul_infinity_cases (v : float) :
  Prim2SF (v * infinity) = S754_nan \/
  exists s, Prim2SF (v * infinity) = S754_infinity s.
Proof.
  rewrite mul_spec. change (Prim2SF infinity) with (S754_infinity false).
  destruct (Prim2SF v) as [s|s| |s m e]; cbn; eauto.
Qed.

(** No double is within a finite distance of a NaN or of an infinity. *)
Lemma abs_sub_not_finite_leb (a b tol : float) (s : bool) (m : positive) (e : Z) :
  (Prim2SF a = S754_nan \/ exists s', Prim2SF a = S754_infinity s') ->
  Prim2SF tol = S754_finite s m e ->
  (abs (a - b) <=? tol) = false.
Proof.
  intros Ha Ht. rewrite leb_spec, abs_spec, sub_spec, Ht.
  destruct Ha as [-> | [sa ->]].
  - reflexivity.
  - destruct (Prim2SF b) as [sb|sb| |sb mb eb]; destruct sa; try destruct sb;
      destruct s; reflexivity.
Qed.

End FloatFacts.

(** ** Rounding

    What the rounding of [SpecFloat] does to a mantissa, and from there:
    sums, products and quotients of nonnegative doubles are not below
    what they are in exact arithmetic rounded down to a double. *)

Module RoundingFacts.

Import Double FloatFacts.
Local Open Scope Z_scope.

(** *** Digits, shifts and the rounding of a mantissa *)

Lemma digits2_pos_lower (m : positive) : 2 ^ (Zpos (digits2_pos m) - 1) <= Zpos m.
Proof.
  induction m as [m IH|m IH|]; cbn [digits2_pos].
  - rewrite Pos2Z.inj_succ. replace (Z.succ (Zpos (digits2_pos m)) - 1) with (Z.succ (Zpos (digits2_pos m) - 1)) by lia.
    rewrite Z.pow_succ_r by lia. lia.
  - rewrite Pos2Z.inj_succ. replace (Z.succ (Zpos (digits2_pos m)) - 1) with (Z.succ (Zpos (digits2_pos m) - 1)) by lia.
    rewrite Z.pow_succ_r by lia. lia.
  - reflexivity.
Qed.

Lemma shr_1_m (mrs : shr_record) :
  0 <= shr_m mrs -> shr_m (shr_1 mrs) = shr_m mrs / 2.
Proof.
  destruct mrs as [m r s]. cbn [shr_m shr_1]. intros Hm.
  destruct m as [|p|p]; [reflexivity| |lia].
  destruct p as [p|p|]; cbn [shr_m].
  - rewrite Pos2Z.inj_xI. apply Z.div_unique with 1; lia.
  - rewrite Pos2Z.inj_xO. apply Z.div_unique with 0; lia.
  - reflexivity.
Qed.

Lemma shr_1_m_nonneg (mrs : shr_record) :
  0 <= shr_m mrs -> 0 <= shr_m (shr_1 mrs).
Proof. intros H. rewrite shr_1_m by assumption. apply Z.div_pos; lia. Qed.

Lemma pow2_xO (p : positive) : 2 ^ Zpos p~0 = 2 ^ Zpos p * 2 ^ Zpos p.
Proof.
  rewrite <- Z.pow_add_r by lia. f_equal. lia.
Qed.

Lemma pow2_xI (p : positive) : 2 ^ Zpos p~1 = 2 * 2 ^ Zpos p * 2 ^ Zpos p.
Proof.
  rewrite <- Z.mul_assoc, <- pow2_xO, <- Z.pow_succ_r by lia. reflexivity.
Qed.

Lemma iter_pos_shr_1 (p : positive) : forall mrs,
  0 <= shr_m mrs ->
  shr_m (SpecFloat.iter_pos shr_1 p mrs) = shr_m mrs / 2 ^ Zpos p.
Proof.
  induction p as [p IH|p IH|]; intros mrs Hm; cbn [SpecFloat.iter_pos];
    try assert (Hpow : 0 < 2 ^ Zpos p) by (apply Z.pow_pos_nonneg; lia).
  - assert (H1 := shr_1_m_nonneg mrs Hm).
    assert (H2 : 0 <= shr_m (SpecFloat.iter_pos shr_1 p (shr_1 mrs))).
    { rewrite IH by assumption. apply Z.div_pos; assumption. }
    rewrite IH, IH, shr_1_m by assumption.
    rewrite Z.div_div by lia. rewrite Z.div_div by nia.
    now rewrite pow2_xI, Z.mul_assoc.
  - assert (H2 : 0 <= shr_m (SpecFloat.iter_pos shr_1 p mrs)).
    { rewrite IH by assumption. apply Z.div_pos; assumption. }
    rewrite IH, IH by assumption.
    rewrite Z.div_div by lia. now rewrite pow2_xO.
  - rewrite shr_1_m by assumption. reflexivity.
Qed.

Lemma shr_record_of_loc_m m l : shr_m (shr_record_of_loc m l) = m.
Proof. destruct l as [|[]]; reflexivity. Qed.

(** What [shr] does to the mantissa and to the exponent. *)
Lemma shr_spec (mrs : shr_record) (e n : Z) :
  0 <= shr_m mrs ->
  (n <= 0 -> shr mrs e n = (mrs, e)) /\
  (0 < n -> shr_m (fst (shr mrs e n)) = shr_m mrs / 2 ^ n /\
            snd (shr mrs e n) = e + n).
Proof.
  intros Hm. split; intros Hn.
  - destruct n; try reflexivity. lia.
  - destruct n as [|p|p]; try lia. cbn [shr fst snd].
    split; [apply iter_pos_shr_1; assumption | reflexivity].
Qed.

Lemma round_nearest_even_bounds (m : Z) (l : location) :
  m <= round_nearest_even m l <= m + 1.
Proof.
  destruct l as [|[]]; cbn [round_nearest_even]; try lia.
  destruct (Z.even m); lia.
Qed.

Lemma fexp64 (k : Z) : SpecFloat.fexp prec emax k = Z.max (k - 53) (-1074).
Proof. reflexivity. Qed.

(** A valid mantissa-exponent pair is canonical. *)
Lemma bounded_canonical (m : positive) (e : Z) :
  SpecFloat.bounded prec emax m e = true ->
  Z.max (Zpos (digits2_pos m) + e - 53) (-1074) = e.
Proof.
  unfold SpecFloat.bounded, SpecFloat.canonical_mantissa. rewrite fexp64.
  intros H. apply andb_prop in H as [H _]. now apply Z.eqb_eq in H.
Qed.

Lemma shr_fexp_spec (m : positive) (e : Z) (l : location) :
  let k := Z.max (Zpos (digits2_pos m) + e - 53) (-1074) - e in
  let res := shr_fexp prec emax (Zpos m) e l in
  (k <= 0 /\ shr_m (fst res) = Zpos m /\ snd res = e /\
   loc_of_shr_record (fst res) = l) \/
  (0 < k /\ shr_m (fst res) = Zpos m / 2 ^ k /\ snd res = e + k).
Proof.
  intros k res. subst res. unfold shr_fexp. cbn [Zdigits2].
  rewrite fexp64. fold k.
  assert (Hm : 0 <= shr_m (shr_record_of_loc (Zpos m) l))
    by (rewrite shr_record_of_loc_m; lia).
  destruct (shr_spec (shr_record_of_loc (Zpos m) l) e k Hm) as [H1 H2].
  destruct (Z_le_gt_dec k 0) as [Hk|Hk].
  - left. rewrite (H1 Hk). cbn [fst snd].
    rewrite shr_record_of_loc_m. repeat split; try assumption.
    destruct l as [|[]]; reflexivity.
  - right. destruct H2 as [H2 H3]; [lia|].
    rewrite H2, H3, shr_record_of_loc_m. repeat split; lia.
Qed.

(** The magnitude of a number bounds the magnitude of a smaller one. *)
Lemma magnitude_le (m1 mx : positive) (e1 ex c : Z) :
  c <= e1 -> c <= ex ->
  Zpos m1 * 2 ^ (e1 - c) <= Zpos mx * 2 ^ (ex - c) ->
  Zpos (digits2_pos m1) + e1 <= Zpos (digits2_pos mx) + ex.
Proof.
  intros Hc1 Hcx Hle.
  pose proof (digits2_pos_lower m1) as Hl.
  pose proof (digits2_pos_bound mx) as Hu.
  set (d1 := Zpos (digits2_pos m1)) in *. set (dx := Zpos (digits2_pos mx)) in *.
  assert (Hd1 : 0 < d1) by (subst d1; lia).
  assert (Hdx : 0 < dx) by (subst dx; lia).
  assert (H1 : 2 ^ (d1 - 1 + (e1 - c)) <= Zpos m1 * 2 ^ (e1 - c)).
  { rewrite Z.pow_add_r by lia. apply Z.mul_le_mono_nonneg_r; [apply Z.pow_nonneg; lia|assumption]. }
  assert (H2 : Zpos mx * 2 ^ (ex - c) < 2 ^ (dx + (ex - c))).
  { rewrite Z.pow_add_r by lia. apply Z.mul_lt_mono_pos_r; [apply Z.pow_pos_nonneg; lia|assumption]. }
  assert (H3 : 2 ^ (d1 - 1 + (e1 - c)) < 2 ^ (dx + (ex - c))) by lia.
  apply Z.pow_lt_mono_r_iff in H3; lia.
Qed.

(** Shifting a mantissa of [d > 53] bits down to 53 bits leaves at least
    [2^52]. *)
Lemma shift_to_53_bits (m : positive) (k : Z) :
  0 < k -> k = Zpos (digits2_pos m) - 53 -> 2 ^ 52 <= Zpos m / 2 ^ k.
Proof.
  intros Hk ->. pose proof (digits2_pos_lower m) as Hl.
  apply Z.div_le_lower_bound; [apply Z.pow_pos_nonneg; lia|].
  rewrite <- Z.pow_add_r by lia.
  replace (Zpos (digits2_pos m) - 53 + 52) with (Zpos (digits2_pos m) - 1) by lia.
  assumption.
Qed.

(** Rounding a number that is at least a representable [m1 * 2^e1] gives
    at least that number: the result has a greater exponent, or the same
    exponent and a mantissa that is not smaller. *)
Lemma binary_round_aux_lower (s : bool) (m1 mx : positive) (e1 ex c : Z)
    (lx : location) :
  SpecFloat.bounded prec emax m1 e1 = true ->
  c <= e1 -> c <= ex ->
  Zpos m1 * 2 ^ (e1 - c) <= Zpos mx * 2 ^ (ex - c) ->
  match binary_round_aux prec emax s (Zpos mx) ex lx with
  | S754_finite s' m e => s' = s /\ (e1 < e \/ (e = e1 /\ Zpos m1 <= Zpos m))
  | S754_infinity s' => s' = s
  | S754_nan => False
  | S754_zero _ => False
  end.
Proof.
  intros Hv Hc1 Hcx Hle. apply bounded_canonical in Hv.
  pose proof (magnitude_le m1 mx e1 ex c Hc1 Hcx Hle) as Hmag.
  unfold binary_round_aux.
  pose proof (shr_fexp_spec mx ex lx) as H1. cbv zeta in H1.
  destruct (shr_fexp prec emax (Zpos mx) ex lx) as [mrs' e'].
  cbn [fst snd] in H1.
  set (k := Z.max (Zpos (digits2_pos mx) + ex - 53) (-1074) - ex) in *.
  (* the truncated mantissa *)
  assert (He' : e1 <= e') by (destruct H1 as [(?&?&?&?)|(?&?&?)]; lia).
  assert (Hsame : e' = e1 -> Zpos m1 <= shr_m mrs').
  { intros ->. destruct H1 as [(Hk & -> & He & _)|(Hk & -> & He)].
    - subst ex. apply Z.mul_le_mono_pos_r in Hle; [assumption|].
      apply Z.pow_pos_nonneg; lia.
    - apply Z.div_le_lower_bound; [apply Z.pow_pos_nonneg; lia|].
      replace (e1 - c) with (k + (ex - c)) in Hle by lia.
      rewrite Z.pow_add_r, Z.mul_assoc in Hle by lia.
      apply Z.mul_le_mono_pos_r in Hle; [lia|].
      apply Z.pow_pos_nonneg; lia. }
  assert (Hpos : 0 < shr_m mrs').
  { destruct (Z.eq_dec e' e1) as [E|E]; [specialize (Hsame E); lia|].
    destruct H1 as [(Hk & -> & He & _)|(Hk & -> & He)]; [lia|].
    pose proof (shift_to_53_bits mx k Hk) as H52.
    assert (2 ^ 52 <= Zpos mx / 2 ^ k) by (apply H52; lia). lia. }
  pose proof (round_nearest_even_bounds (shr_m mrs') (loc_of_shr_record mrs')) as Hr.
  destruct (round_nearest_even (shr_m mrs') (loc_of_shr_record mrs')) as [|mr|mr] eqn:Er;
    try lia.
  pose proof (shr_fexp_spec mr e' loc_Exact) as H2. cbv zeta in H2.
  destruct (shr_fexp prec emax (Zpos mr) e' loc_Exact) as [mrs'' e''].
  cbn [fst snd] in H2.
  set (k2 := Z.max (Zpos (digits2_pos mr) + e' - 53) (-1074) - e') in *.
  destruct H2 as [(Hk2 & Hm2 & He2 & _)|(Hk2 & Hm2 & He2)]; rewrite Hm2.
  - subst e''. destruct (e' <=? emax - prec); [|reflexivity].
    split; [reflexivity|].
    destruct (Z.eq_dec e' e1) as [E|E]; [right; split; [assumption|]|left; lia].
    specialize (Hsame E). lia.
  - pose proof (shift_to_53_bits mr k2 Hk2) as H52.
    assert (H : 2 ^ 52 <= Zpos mr / 2 ^ k2) by (apply H52; lia).
    destruct (Zpos mr / 2 ^ k2) as [|m''|m''] eqn:Em; try lia.
    destruct (e'' <=? emax - prec); [|reflexivity].
    split; [reflexivity|]. left. lia.
Qed.

(** *** Sums *)

Lemma shr_fexp_nonneg (m e : Z) (l : location) :
  0 <= m -> 0 <= shr_m (fst (shr_fexp prec emax m e l)).
Proof.
  intros Hm. unfold shr_fexp.
  set (n := SpecFloat.fexp prec emax (Zdigits2 m + e) - e).
  assert (H0 : 0 <= shr_m (shr_record_of_loc m l))
    by (rewrite shr_record_of_loc_m; assumption).
  destruct (shr_spec (shr_record_of_loc m l) e n H0) as [H1 H2].
  destruct (Z_le_gt_dec n 0) as [Hn|Hn].
  - rewrite (H1 Hn). assumption.
  - destruct H2 as [H2 _]; [lia|]. rewrite H2.
    apply Z.div_pos; [assumption | apply Z.pow_pos_nonneg; lia].
Qed.

(** Rounding a nonnegative mantissa gives a zero, a finite number or an
    infinity of the sign asked for: never a NaN. *)
Lemma binary_round_aux_class (s : bool) (mx ex : Z) (lx : location) :
  0 <= mx ->
  match binary_round_aux prec emax s mx ex lx with
  | S754_finite s' _ _ | S754_infinity s' | S754_zero s' => s' = s
  | S754_nan => False
  end.
Proof.
  intros Hm. unfold binary_round_aux.
  pose proof (shr_fexp_nonneg mx ex lx Hm) as H1.
  destruct (shr_fexp prec emax mx ex lx) as [mrs' e']. cbn [fst] in H1.
  pose proof (round_nearest_even_bounds (shr_m mrs') (loc_of_shr_record mrs')) as Hr.
  set (mr := round_nearest_even (shr_m mrs') (loc_of_shr_record mrs')) in *.
  assert (Hmr : 0 <= mr) by lia.
  pose proof (shr_fexp_nonneg mr e' loc_Exact Hmr) as H2.
  destruct (shr_fexp prec emax mr e' loc_Exact) as [mrs'' e'']. cbn [fst] in H2.
  destruct (shr_m mrs'') as [|m|m]; try reflexivity; try lia.
  destruct (e'' <=? emax - prec); reflexivity.
Qed.

Lemma pos_iter_xO (m d : positive) :
  Zpos (Pos.iter xO m d) = Zpos m * 2 ^ Zpos d.
Proof.
  induction d as [|d IH] using Pos.peano_ind.
  - cbn [Pos.iter]. rewrite Pos2Z.inj_xO. change (2 ^ 1) with 2. ring.
  - rewrite Pos.iter_succ, Pos2Z.inj_xO, IH, Pos2Z.inj_succ, Z.pow_succ_r by lia.
    ring.
Qed.

Lemma shl_align_spec (mx : positive) (ex ex' : Z) :
  let res := shl_align mx ex ex' in
  snd res <= ex /\ snd res = Z.min ex ex' /\
  Zpos (fst res) = Zpos mx * 2 ^ (ex - snd res).
Proof.
  unfold shl_align. destruct (ex' - ex) as [|d|d] eqn:E; cbn [fst snd].
  - repeat split; try lia. rewrite Z.sub_diag. cbn. lia.
  - repeat split; try lia. rewrite Z.sub_diag. cbn. lia.
  - repeat split; try lia. rewrite pos_iter_xO. f_equal. f_equal. lia.
Qed.

(** Adding a nonnegative number to [m1 * 2^e1] gives at least that
    number. *)
Lemma SFadd_lower (m1 : positive) (e1 : Z) (y : spec_float) :
  SpecFloat.bounded prec emax m1 e1 = true -> sf_nonneg y ->
  sf_at_least m1 e1 (SF64add (S754_finite false m1 e1) y).
Proof.
  intros Hv Hy. unfold SF64add, SFadd.
  destruct y as [sy|sy| |sy m2 e2]; cbn [sf_nonneg] in Hy; try contradiction.
  - cbn [sf_at_least]. split; [reflexivity|right; split; lia].
  - subst sy. reflexivity.
  - subst sy. cbn [cond_Zopp].
    pose proof (shl_align_spec m1 e1 (Z.min e1 e2)) as (_ & Ha1 & Ha2).
    pose proof (shl_align_spec m2 e2 (Z.min e1 e2)) as (_ & Hb1 & Hb2).
    cbv zeta in *.
    set (ez := Z.min e1 e2) in *.
    destruct (shl_align m1 e1 ez) as [a ea]. destruct (shl_align m2 e2 ez) as [b eb].
    cbn [fst snd] in *.
    assert (Hea : ea = ez) by lia. assert (Heb : eb = ez) by lia. subst ea eb.
    cbn [Z.add binary_normalize]. unfold binary_round.
    pose proof (shl_align_spec (a + b) ez
                  (SpecFloat.fexp prec emax (Zpos (digits2_pos (a + b)) + ez)))
      as (Hc0 & _ & Hc2).
    cbv zeta in *.
    destruct (shl_align (a + b) ez _) as [mz ez']. cbn [fst snd] in *.
    pose proof (binary_round_aux_lower false m1 mz e1 ez' ez' loc_Exact Hv) as Hlow.
    assert (Hez : ez <= e1) by lia.
    assert (Hle : Zpos m1 * 2 ^ (e1 - ez') <= Zpos mz * 2 ^ (ez' - ez')).
    { rewrite Hea in Ha2.
      rewrite Z.sub_diag, Z.mul_1_r, Hc2, Pos2Z.inj_add, Ha2.
      replace (e1 - ez') with ((e1 - ez) + (ez - ez')) by lia.
      rewrite Z.pow_add_r, Z.mul_assoc by lia.
      apply Z.mul_le_mono_nonneg_r; [apply Z.pow_nonneg; lia|]. lia. }
    specialize (Hlow ltac:(lia) ltac:(lia) Hle).
    unfold sf_at_least.
    destruct (binary_round_aux prec emax false (Zpos mz) ez' loc_Exact); assumption.
Qed.

(** *** Products and quotients *)

(** A valid mantissa has at most 53 bits, and exactly 53 above the least
    exponent. *)
Lemma bounded_digits (m : positive) (e : Z) :
  SpecFloat.bounded prec emax m e = true ->
  Zpos (digits2_pos m) <= 53 /\ -1074 <= e /\
  (-1074 < e -> Zpos (digits2_pos m) = 53).
Proof. intros H. apply bounded_canonical in H. lia. Qed.

Lemma bounded_mantissa (m : positive) (e : Z) :
  SpecFloat.bounded prec emax m e = true ->
  Zpos m < 2 ^ 53 /\ (-1074 < e -> 2 ^ 52 <= Zpos m).
Proof.
  intros H. apply bounded_digits in H as (H1 & H2 & H3).
  pose proof (digits2_pos_bound m) as Hu. pose proof (digits2_pos_lower m) as Hl.
  split.
  - eapply Z.lt_le_trans; [exact Hu|]. apply Z.pow_le_mono_r; lia.
  - intros He. rewrite (H3 He) in Hl. exact Hl.
Qed.

(** The order on canonical pairs is the order on the numbers. *)
Lemma at_least_value (m1 m2 : positive) (e1 e2 c : Z) :
  SpecFloat.bounded prec emax m1 e1 = true ->
  SpecFloat.bounded prec emax m2 e2 = true ->
  e1 < e2 \/ (e2 = e1 /\ Zpos m1 <= Zpos m2) ->
  c <= e1 -> c <= e2 ->
  Zpos m1 * 2 ^ (e1 - c) <= Zpos m2 * 2 ^ (e2 - c).
Proof.
  intros H1 H2 Hle Hc1 Hc2.
  pose proof (bounded_digits _ _ H1) as (_ & He1 & _).
  pose proof (bounded_mantissa _ _ H1) as [Hm1 _].
  pose proof (bounded_mantissa _ _ H2) as [_ Hm2].
  destruct Hle as [Hlt | [-> Hm]].
  - specialize (Hm2 ltac:(lia)).
    replace (e2 - c) with ((e2 - e1 - 1) + 1 + (e1 - c)) by lia.
    rewrite !Z.pow_add_r by lia. change (2 ^ 1) with 2.
    assert (Hp : 0 < 2 ^ (e1 - c)) by (apply Z.pow_pos_nonneg; lia).
    assert (Hq : 1 <= 2 ^ (e2 - e1 - 1)).
    { change 1 with (2 ^ 0). apply Z.pow_le_mono_r; lia. }
    rewrite !Z.mul_assoc. apply Z.mul_le_mono_nonneg_r; [lia|].
    change (2 ^ 53) with (2 ^ 52 * 2) in Hm1. nia.
  - apply Z.mul_le_mono_nonneg_r; [apply Z.pow_nonneg; lia | assumption].
Qed.

(** Multiplying [m1 * 2^e1] by a number that is at least [1] gives at
    least [m1 * 2^e1]. *)
Lemma SFmul_lower (m1 : positive) (e1 : Z) (x : spec_float) :
  SpecFloat.bounded prec emax m1 e1 = true ->
  valid_binary x = true ->
  sf_at_least 4503599627370496 (-52) x ->
  sf_at_least m1 e1 (SF64mul (S754_finite false m1 e1) x).
Proof.
  intros Hv Hx Hge. unfold SF64mul, SFmul.
  destruct x as [sx|sx| |sx m2 e2]; cbn [sf_at_least] in Hge; try contradiction.
  - subst sx. reflexivity.
  - destruct Hge as [-> Hge]. cbn [xorb].
    cbn [SpecFloat.valid_binary] in Hx.
    pose proof (at_least_value 4503599627370496 m2 (-52) e2 (Z.min (-52) e2)
                  eq_refl Hx Hge ltac:(lia) ltac:(lia)) as Hone.
    set (c := Z.min e1 (e1 + e2)).
    pose proof (binary_round_aux_lower false m1 (m1 * m2) e1 (e1 + e2) c
                  loc_Exact Hv ltac:(lia) ltac:(lia)) as Hlow.
    assert (Hle : Zpos m1 * 2 ^ (e1 - c) <= Zpos (m1 * m2) * 2 ^ (e1 + e2 - c)).
    { rewrite Pos2Z.inj_mul, <- Z.mul_assoc.
      apply Z.mul_le_mono_nonneg_l; [lia|].
      destruct (Z_le_gt_dec 0 e2) as [He|He].
      - replace c with e1 by lia. rewrite Z.sub_diag.
        replace (e1 + e2 - e1) with e2 by lia.
        assert (1 <= 2 ^ e2) by (change 1 with (2 ^ 0); apply Z.pow_le_mono_r; lia).
        change (2 ^ 0) with 1. nia.
      - replace c with (e1 + e2) by lia. rewrite Z.sub_diag.
        replace (e1 - (e1 + e2)) with (- e2) by lia.
        change (2 ^ 0) with 1. rewrite Z.mul_1_r.
        destruct (Z_le_gt_dec (-52) e2) as [He2|He2].
        + replace (Z.min (-52) e2) with (-52) in Hone by lia.
          rewrite Z.sub_diag in Hone. change (2 ^ 0) with 1 in Hone.
          assert (Hp : 0 < 2 ^ (- e2)) by (apply Z.pow_pos_nonneg; lia).
          assert (E : 2 ^ (e2 - -52) * 2 ^ (- e2) = 2 ^ 52).
          { rewrite <- Z.pow_add_r by lia. f_equal. lia. }
          change (Zpos 4503599627370496) with (2 ^ 52) in Hone.
          assert (Hq : 0 < 2 ^ (e2 - -52)) by (apply Z.pow_pos_nonneg; lia).
          nia.
        + destruct Hge as [Hge|[Hge _]]; lia. }
    specialize (Hlow Hle). unfold sf_at_least.
    destruct (binary_round_aux prec emax false (Zpos (m1 * m2)) (e1 + e2) loc_Exact);
      assumption.
Qed.


(** *** Signs *)


Lemma div_eucl_nonneg (a : Z) (b : positive) :
  0 <= a -> 0 <= fst (Z.div_eucl a (Zpos b)).
Proof. intros Ha. change (0 <= a / Zpos b). apply Z.div_pos; lia. Qed.

Lemma SFdiv_nonneg (x y : spec_float) :
  sf_nonneg x -> sf_clear y ->
  SF64div x y = S754_nan \/ sf_nonneg (SF64div x y).
Proof.
  unfold SF64div, SFdiv.
  destruct x as [sx|sx| |sx mx ex], y as [sy|sy| |sy my ey];
    cbn [sf_nonneg sf_clear]; intros Hx Hy; try contradiction; subst;
    try (left; reflexivity); try (right; exact I); try (right; reflexivity).
  right. unfold SFdiv_core_binary.
  set (s := ex - ey - _).
  set (m' := match s with Zpos _ => Z.shiftl (Zpos mx) s | Z0 => Zpos mx | Zneg _ => 0 end).
  assert (Hm' : 0 <= m').
  { subst m'. destruct s; try lia. apply Z.shiftl_nonneg. lia. }
  pose proof (div_eucl_nonneg m' my Hm') as Hq.
  destruct (Z.div_eucl m' (Zpos my)) as [q r]. cbn [fst] in Hq.
  pose proof (binary_round_aux_class (xorb false false) q
                (Z.min (SpecFloat.fexp prec emax
                          (Zdigits2 (Zpos mx) + ex - (Zdigits2 (Zpos my) + ey)))
                       (ex - ey))
                (new_location (Zpos my) r) Hq) as H.
  destruct (binary_round_aux _ _ _ _ _ _); cbn [sf_nonneg]; auto.
Qed.

(** With a positive finite divisor and a nonnegative dividend the quotient
    is a number. *)
Lemma SFdiv_nonneg_finite (x y : spec_float) :
  sf_nonneg x -> sf_pos_finite y -> sf_nonneg (SF64div x y).
Proof.
  intros Hx Hy.
  destruct y as [sy|sy| |sy my ey]; cbn [sf_pos_finite] in Hy; try contradiction.
  subst sy.
  destruct (SFdiv_nonneg x (S754_finite false my ey) Hx eq_refl) as [H|H];
    [|exact H].
  exfalso. unfold SF64div, SFdiv in H.
  destruct x as [sx|sx| |sx mx ex]; cbn [sf_nonneg] in Hx; try discriminate;
    try contradiction.
  unfold SFdiv_core_binary in H.
  set (s := ex - ey - _) in H.
  set (m' := match s with Zpos _ => Z.shiftl (Zpos mx) s | Z0 => Zpos mx | Zneg _ => 0 end) in H.
  assert (Hm' : 0 <= m').
  { subst m'. destruct s; try lia. apply Z.shiftl_nonneg. lia. }
  pose proof (div_eucl_nonneg m' my Hm') as Hq.
  destruct (Z.div_eucl m' (Zpos my)) as [q r]. cbn [fst] in Hq.
  pose proof (binary_round_aux_class (xorb sx false) q
                (Z.min (SpecFloat.fexp prec emax
                          (Zdigits2 (Zpos mx) + ex - (Zdigits2 (Zpos my) + ey)))
                       (ex - ey))
                (new_location (Zpos my) r) Hq) as Hc.
  rewrite H in Hc. exact Hc.
Qed.

End RoundingFacts.

(** ** Rounding to nearest

    Where the bits shifted out of a mantissa lie decides the direction of
    the rounding.  From there: the square of a double and the square root
    of a double, as [SpecFloat] computes them. *)

Module NearestFacts.

Import Double FloatFacts RoundingFacts.
Local Open Scope Z_scope.

(** *** The location of the bits shifted out *)






(** *** Rounding an exact mantissa *)



(** *** Square roots *)








(** *** Numbers whose sign bit is clear *)








End NearestFacts.

(** ** The order of binary64 and the operations of the sampler *)

Module OrderFacts.

Import Double FloatFacts RoundingFacts.
Local Open Scope float_scope.

(** *** From comparisons to classes *)

Lemma leb_zero_nonneg (e : float) : (0 <=? e) = true -> sf_nonneg (Prim2SF e).
Proof.
  rewrite leb_spec. change (Prim2SF 0) with (S754_zero false).
  destruct (Prim2SF e) as [s|[|]| |[|] m ex]; try discriminate; reflexivity.
Qed.


Lemma pos_clear (c : float) : (0 <? c) = true -> sf_clear (Prim2SF c).
Proof.
  rewrite ltb_spec. change (Prim2SF 0) with (S754_zero false).
  destruct (Prim2SF c) as [s|[|]| |[|] m ex]; try discriminate; reflexivity.
Qed.

Lemma Prim2SF_bounded (t : float) (s : bool) (m : positive) (e : Z) :
  Prim2SF t = S754_finite s m e -> SpecFloat.bounded prec emax m e = true.
Proof. intros H. pose proof (Prim2SF_valid t) as Hv. now rewrite H in Hv. Qed.

(** *** From classes to comparisons *)

Lemma at_least_leb (t r : float) (m : positive) (e : Z) :
  Prim2SF t = S754_finite false m e -> sf_at_least m e (Prim2SF r) ->
  (t <=? r) = true /\ (r <? t) = false.
Proof.
  intros Ht Hr. rewrite leb_spec, ltb_spec, Ht. unfold SFleb, SFltb.
  destruct (Prim2SF r) as [s|s| |s m' e']; cbn [sf_at_least] in Hr;
    try contradiction.
  - subst s. split; reflexivity.
  - destruct Hr as [-> Hr]. unfold SFcompare.
    destruct Hr as [Hlt | [-> Hm]].
    + rewrite (proj2 (Z.compare_lt_iff e e') Hlt).
      rewrite (proj2 (Z.compare_gt_iff e' e) Hlt). split; reflexivity.
    + rewrite Z.compare_refl.
      change (Pos.compare_cont Eq m m') with (Pos.compare m m').
      change (Pos.compare_cont Eq m' m) with (Pos.compare m' m).
      rewrite (Pos.compare_antisym m m').
      destruct (Pos.compare_spec m m') as [E|E|E]; cbn [CompOpp];
        try (split; reflexivity).
      apply Pos2Z.pos_lt_pos in E. lia.
Qed.

Lemma nan_not_ltb (r t : float) : Prim2SF r = S754_nan -> (r <? t) = false.
Proof. intros H. rewrite ltb_spec, H. reflexivity. Qed.

(** *** The operations of the sampler *)

Lemma add_lower (t y : float) (m : positive) (e : Z) :
  Prim2SF t = S754_finite false m e -> sf_nonneg (Prim2SF y) ->
  sf_at_least m e (Prim2SF (t + y)).
Proof.
  intros Ht Hy. rewrite add_spec, Ht.
  apply SFadd_lower; [eapply Prim2SF_bounded; eassumption | assumption].
Qed.

Lemma mul_lower (t x : float) (m : positive) (e : Z) :
  Prim2SF t = S754_finite false m e ->
  sf_at_least 4503599627370496 (-52) (Prim2SF x) ->
  sf_at_least m e (Prim2SF (t * x)).
Proof.
  intros Ht Hx. rewrite mul_spec, Ht.
  apply SFmul_lower; [eapply Prim2SF_bounded; eassumption | apply Prim2SF_valid | assumption].
Qed.


Lemma mul_nan_r (t x : float) : Prim2SF x = S754_nan -> Prim2SF (t * x) = S754_nan.
Proof. intros H. rewrite mul_spec, H. unfold SF64mul, SFmul. now destruct (Prim2SF t). Qed.






End OrderFacts.

(** ** The proposal rate of the sampler

    The rate [c0] of line 287 is [0.5 * (m + sqrt (m * m + 4 * tb)) / tb]
    with [m = tb - a].  Where [m] is negative the square root is not
    below [-m], although the square [m * m] may have been rounded down:
    the sum [m + sqrt ...] is never negative. *)

Module RateFacts.

Import Double Sampler FloatFacts RoundingFacts NearestFacts OrderFacts.
Local Open Scope Z_scope.



Local Open Scope float_scope.


Lemma clear_nonneg (r : spec_float) : sf_clear r -> sf_nonneg r.
Proof. destruct r; cbn [sf_clear sf_nonneg]; auto. Qed.



End RateFacts.

(** ** [pgm_erfc] *)

Module ErfcFacts.

Import Double Pgm FloatFacts.
Local Open Scope float_scope.

Section Erfc.

Variable M : libm.

Lemma pgm_erfc_rec_mono (fuel : nat) : forall (fuel' : nat) (x v : float),
  (fuel <= fuel')%nat ->
  pgm_erfc_rec M fuel x = Some v -> pgm_erfc_rec M fuel' x = Some v.
Proof.
  induction fuel as [|fuel IH]; intros fuel' x v Hle H; [discriminate|].
  destruct fuel' as [|fuel']; [lia|]. cbn [pgm_erfc_rec] in *.
  destruct (x <? PGM_SMALL_VAL); [exact H|].
  destruct (x <? - DBL_EPSILON); [|exact H].
  destruct (pgm_erfc_rec M fuel (- x)) as [y|] eqn:E; [|discriminate].
  rewrite (IH fuel' (- x) y); [exact H | lia | exact E].
Qed.

(** The argument [-x] of the inner call is positive: the inner call takes
    neither of the first two branches. *)
Lemma reflected_argument (x : float) :
  (x <? - DBL_EPSILON) = true ->
  (- x <? PGM_SMALL_VAL) = false /\ (- x <? - DBL_EPSILON) = false.
Proof.
  intros H.
  assert (Hx := ltb_neg_const x (- DBL_EPSILON) _ _ eq_refl H).
  apply opp_of_negative in Hx.
  split; eapply ltb_pos_neg_const; try exact Hx; reflexivity.
Qed.

(** Outside the reflected range the function makes no inner call. *)
Lemma pgm_erfc_rec_direct (fuel : nat) (x : float) :
  (x <? PGM_SMALL_VAL) = true \/ (x <? - DBL_EPSILON) = false ->
  exists v, pgm_erfc_rec M (S fuel) x = Some v.
Proof.
  intros H. cbn [pgm_erfc_rec]. cbv zeta.
  destruct (x <? PGM_SMALL_VAL); [eauto|].
  destruct H as [H|H]; [discriminate|]. rewrite H.
  repeat match goal with
         | |- exists v, (if ?c then _ else _) = Some v => destruct c
         end; eauto.
Qed.

Lemma pgm_erfc_rec_reflect (fuel : nat) (x : float) :
  (x <? PGM_SMALL_VAL) = false -> (x <? - DBL_EPSILON) = true ->
  pgm_erfc_rec M (S fuel) x = (y <- pgm_erfc_rec M fuel (- x) ;; Some (2 - y)).
Proof. intros E1 E2. cbn [pgm_erfc_rec]. now rewrite E1, E2. Qed.

(** [pgm_erfc] returns on every double, NaN and the infinities included. *)
Lemma pgm_erfc_total (x : float) : exists v, pgm_erfc M x = Some v.
Proof.
  unfold pgm_erfc.
  destruct (x <? PGM_SMALL_VAL) eqn:E1; [apply pgm_erfc_rec_direct; auto|].
  destruct (x <? - DBL_EPSILON) eqn:E2; [|apply pgm_erfc_rec_direct; auto].
  destruct (reflected_argument x E2) as [_ H2].
  destruct (pgm_erfc_rec_direct 0 (- x) (or_intror H2)) as [y Hy].
  exists (2 - y). now rewrite (pgm_erfc_rec_reflect 1 x E1 E2), Hy.
Qed.

(** More fuel than [pgm_erfc] has changes nothing. *)
Lemma pgm_erfc_rec_fuel (fuel : nat) (x : float) :
  (2 <= fuel)%nat -> pgm_erfc_rec M fuel x = pgm_erfc M x.
Proof.
  intros Hfuel. destruct (pgm_erfc_total x) as [v Hv]. rewrite Hv.
  eapply pgm_erfc_rec_mono; eassumption.
Qed.

(** For [PGM_SMALL_VAL <= x < -DBL_EPSILON] the result is
    [2 - pgm_erfc(-x)] (lines 44-46). *)
Lemma pgm_erfc_reflection (x : float) :
  (x <? PGM_SMALL_VAL) = false -> (x <? - DBL_EPSILON) = true ->
  exists y, pgm_erfc M (- x) = Some y /\ pgm_erfc M x = Some (2 - y).
Proof.
  intros E1 E2. destruct (pgm_erfc_total (- x)) as [y Hy].
  exists y. split; [exact Hy|].
  unfold pgm_erfc in *. rewrite (pgm_erfc_rec_reflect 1 x E1 E2).
  destruct (reflected_argument x E2) as [_ H2].
  destruct (pgm_erfc_rec_direct 0 (- x) (or_intror H2)) as [y' Hy'].
  rewrite Hy'. apply (pgm_erfc_rec_mono 1 2) in Hy'; [|lia].
  rewrite Hy in Hy'. injection Hy' as ->. reflexivity.
Qed.

End Erfc.

End ErfcFacts.

(** ** [pgm_lgamma] *)

Module LgammaFacts.

Import Double Pgm FloatFacts.
Local Open Scope float_scope.

Lemma logfactorial_length : length logfactorial = 200%nat.
Proof. reflexivity. Qed.

Lemma logfactorial_at_in_bounds (i : Z) :
  (0 <= i < 200)%Z ->
  exists v, logfactorial_at i = Some v /\
            nth_error logfactorial (Z.to_nat i) = Some v.
Proof.
  intros Hi. unfold logfactorial_at.
  assert (E : ((0 <=? i) && (i <? 200))%Z = true).
  { apply andb_true_intro. split; [apply Z.leb_le | apply Z.ltb_lt]; lia. }
  rewrite E. destruct (nth_error logfactorial (Z.to_nat i)) as [v|] eqn:Ev;
    [eauto|].
  apply nth_error_None in Ev. rewrite logfactorial_length in Ev. lia.
Qed.

(** The lookup on the doubles [1.0], ..., [200.0], whatever [libm] is. *)
Lemma lgamma_lookup_cases (M : libm) (n : nat) :
  (n < 200)%nat ->
  lgamma_lookup_guard (of_size_t (Z.of_nat (S n))) = Some true /\
  pgm_lgamma M (of_size_t (Z.of_nat (S n))) = nth_error logfactorial n.
Proof.
  intros Hn.
  do 200 (destruct n as [|n]; [split; vm_compute; reflexivity|]).
  lia.
Qed.

(** Claim C5.  For every integer [n] with [1 <= n <= 200], [pgm_lgamma]
    on the double [n] takes the lookup branch (its guard holds) and
    returns the table entry [logfactorial[n-1]]; the platform's [log]
    plays no part in the result, so neither the Stirling branch nor a
    rational approximation is evaluated. *)
Theorem lgamma_integer_lookup (M : libm) (n : nat) :
  (1 <= n <= 200)%nat ->
  lgamma_lookup_guard (of_size_t (Z.of_nat n)) = Some true /\
  exists v, nth_error logfactorial (n - 1) = Some v /\
            pgm_lgamma M (of_size_t (Z.of_nat n)) = Some v.
Proof.
  intros [H1 H2]. destruct n as [|n]; [lia|].
  destruct (lgamma_lookup_cases M n) as [Hg Hv]; [lia|].
  split; [exact Hg|]. rewrite Hv.
  replace (S n - 1)%nat with n by lia.
  destruct (nth_error logfactorial n) as [v|] eqn:E; [eauto|].
  apply nth_error_None in E. rewrite logfactorial_length in E. lia.
Qed.

Lemma lgamma_integer_lookup_at_5 :
  lgamma_lookup_guard (of_size_t (Z.of_nat 5)) = Some true /\
  exists v, nth_error logfactorial (5 - 1) = Some v /\
            pgm_lgamma RefLibm.ref_libm (of_size_t (Z.of_nat 5)) = Some v.
Proof. apply (lgamma_integer_lookup RefLibm.ref_libm 5). lia. Defined.

(** *** The index of the lookup *)

Lemma positive_below_201 (z : float) :
  (0 <? z) = true -> (z <? 201) = true ->
  exists m e, Prim2SF z = S754_finite false m e /\ (e <= -45)%Z /\
              (e = -45 -> Zpos m < 201 * 2 ^ 45)%Z.
Proof.
  rewrite !ltb_spec. change (Prim2SF 0) with (S754_zero false).
  change (Prim2SF 201) with (S754_finite false 7072058789855232 (-45)).
  intros H0 H1.
  apply SFltb_zero_l in H0 as [H0 | (m & e & H0)]; rewrite H0 in *.
  - discriminate.
  - exists m, e. split; [reflexivity|].
    apply SFltb_finite_pos in H1 as [H1 | [-> H1]]; split; lia.
Qed.

Lemma to_size_t_below_201 (z : float) :
  (0 <? z) = true -> (z <? 201) = true ->
  exists n, to_size_t z = Some n /\ (0 <= n <= 200)%Z /\
            exists m e, Prim2SF z = S754_finite false m e.
Proof.
  intros Hpos Hlt.
  destruct (positive_below_201 z Hpos Hlt) as (m & e & Hz & He & Hm).
  pose proof (Prim2SF_mantissa_bound _ _ _ _ Hz) as Hb.
  unfold to_size_t, SFtrunc. rewrite Hz.
  destruct (0 <=? e)%Z eqn:E; [apply Z.leb_le in E; lia|]. cbn [bind].
  assert (Hv : (0 <= Zpos m / 2 ^ (- e) <= 200)%Z).
  { split; [apply Z.div_pos; [lia | apply Z.pow_pos_nonneg; lia]|].
    destruct (Z.eq_dec e (-45)) as [->|Hne].
    - specialize (Hm eq_refl). change (- -45)%Z with 45%Z.
      assert (Zpos m / 2 ^ 45 < 201)%Z; [|lia].
      apply Z.div_lt_upper_bound; lia.
    - assert (Zpos m / 2 ^ (- e) < 128)%Z; [|lia].
      apply Z.div_lt_upper_bound; [apply Z.pow_pos_nonneg; lia|].
      assert (2 ^ 46 <= 2 ^ (- e))%Z by (apply Z.pow_le_mono_r; lia).
      change (2 ^ 53)%Z with (2 ^ 46 * 128)%Z in Hb. nia. }
  set (v := (Zpos m / 2 ^ (- e))%Z) in *.
  assert (E' : ((0 <=? v) && (v <=? SIZE_MAX))%Z = true).
  { apply andb_true_intro. split; apply Z.leb_le; unfold SIZE_MAX; lia. }
  rewrite E'. exists v. eauto.
Qed.

(** Claim C10.  Under the precondition [z > 0], whenever [pgm_lgamma]
    takes the lookup branch ([z < 201] and [z == (size_t)z]), [z] is the
    double of an integer [n] of [[1, 200]], the index [(size_t)z - 1] lies
    in [[0, 199]], and the read of the table is defined.  The guard alone
    does not exclude [z = 0]: there it holds, the index wraps to
    [SIZE_MAX], outside the 200 entries, and the read is undefined. *)
Theorem lgamma_lookup_in_bounds (M : libm) (z : float) :
  (0 <? z) = true -> lgamma_lookup_guard z = Some true ->
  (exists n, to_size_t z = Some n /\ (1 <= n <= 200)%Z /\ z = of_size_t n /\
             (0 <= lgamma_index n <= 199)%Z /\
             exists v, logfactorial_at (lgamma_index n) = Some v /\
                       pgm_lgamma M z = Some v) /\
  (lgamma_lookup_guard 0 = Some true /\ lgamma_index 0 = SIZE_MAX /\
   logfactorial_at SIZE_MAX = None /\ pgm_lgamma M 0 = None).
Proof.
  intros Hpos Hg. split; [|repeat split; vm_compute; reflexivity].
  unfold pgm_lgamma. rewrite Hg. cbn [bind].
  unfold lgamma_lookup_guard in Hg.
  destruct (z <? 201) eqn:Hlt; [|discriminate].
  destruct (to_size_t_below_201 z Hpos Hlt) as (n & Hn & Hr & m & e & Hz).
  rewrite Hn in *. cbn [bind] in *. injection Hg as Heq.
  assert (n <> 0%Z).
  { intros ->. rewrite eqb_spec, Hz in Heq. discriminate. }
  assert (Hidx : lgamma_index n = (n - 1)%Z).
  { unfold lgamma_index. apply Z.mod_small. lia. }
  exists n. repeat split; try lia.
  - eapply eqb_finite_eq; eauto.
  - rewrite Hidx.
    destruct (logfactorial_at_in_bounds (n - 1)) as (v & Hv & _); [lia|].
    eauto.
Qed.

Lemma lgamma_lookup_in_bounds_at_3 :
  (exists n, to_size_t 3 = Some n /\ (1 <= n <= 200)%Z /\ 3 = of_size_t n /\
             (0 <= lgamma_index n <= 199)%Z /\
             exists v, logfactorial_at (lgamma_index n) = Some v /\
                       pgm_lgamma RefLibm.ref_libm 3 = Some v) /\
  (lgamma_lookup_guard 0 = Some true /\ lgamma_index 0 = SIZE_MAX /\
   logfactorial_at SIZE_MAX = None /\ pgm_lgamma RefLibm.ref_libm 0 = None).
Proof.
  apply (lgamma_lookup_in_bounds RefLibm.ref_libm 3); reflexivity.
Defined.

End LgammaFacts.

(** ** The continued fractions *)

Module ConfluentFacts.

Import Double Pgm.
Local Open Scope float_scope.

Lemma lentz_update_f (a b c d f : float) :
  snd (fst (lentz_update a b c d f)) = f * snd (lentz_update a b c d f).
Proof. reflexivity. Qed.

(** Names the results of the update in the goal, [f] as a product. *)
Ltac lentz_loop_step :=
  match goal with
  | |- context [lentz_update ?a ?b ?c ?d ?f] =>
      let Hf := fresh "Hf" in
      pose proof (lentz_update_f a b c d f) as Hf;
      destruct (lentz_update a b c d f) as [[[c' d'] f'] delta];
      cbn [fst snd] in Hf; subst f'
  end.

(** The invariant of the loop of [confluent_x_smaller]: at the test of
    iteration [n], [n - 2] iterations have run, none of which converged,
    and [f] is the product of their deltas. *)
Lemma x_smaller_loop_spec (fuel : nat) :
  forall (r s : float) (n : Z) (b c d f0 : float) (ds : list float),
  (2 <= n <= 100)%Z -> (Z.to_nat (100 - n) < fuel)%nat ->
  length ds = Z.to_nat (n - 2) ->
  forallb not_converged ds = true ->
  exists ds',
    x_smaller_loop fuel r s n b c d (lentz_product f0 ds) ds
      = Some (lentz_product f0 ds', ds') /\
    (length ds' <= 98)%nat /\ lentz_trace_ok 98 ds' = true.
Proof.
  induction fuel as [|fuel IH]; intros r s n b c d f0 ds Hn Hfuel Hlen Hall;
    [lia|].
  cbn [x_smaller_loop]. destruct (n <? 100)%Z eqn:En.
  - apply Z.ltb_lt in En. lentz_loop_step.
    destruct (lentz_converged delta) eqn:Ec.
    + exists (delta :: ds). split; [reflexivity|]. split.
      * cbn [length]. lia.
      * cbn [lentz_trace_ok]. rewrite Ec, Hall. reflexivity.
    + change (lentz_product f0 ds * delta) with (lentz_product f0 (delta :: ds)).
      apply IH; try lia.
      * cbn [length]. lia.
      * cbn [forallb]. unfold not_converged at 1. now rewrite Ec.
  - apply Z.ltb_ge in En. assert (n = 100%Z) by lia. subst n.
    exists ds. split; [reflexivity|].
    change (Z.to_nat (100 - 2)) with 98%nat in Hlen.
    split; [lia|].
    destruct ds as [|d0 ds]; [discriminate|].
    cbn [lentz_trace_ok]. cbn [forallb] in Hall.
    apply andb_prop in Hall as [_ Hall].
    rewrite Hall, Hlen. apply orb_true_r.
Qed.

Lemma p_smaller_loop_spec (fuel : nat) :
  forall (p : float) (n : Z) (b c d f0 : float) (ds : list float),
  (1 <= n <= 100)%Z -> (Z.to_nat (100 - n) < fuel)%nat ->
  length ds = Z.to_nat (n - 1) ->
  forallb not_converged ds = true ->
  exists ds',
    p_smaller_loop fuel p n b c d (lentz_product f0 ds) ds
      = Some (lentz_product f0 ds', ds') /\
    (length ds' <= 99)%nat /\ lentz_trace_ok 99 ds' = true.
Proof.
  induction fuel as [|fuel IH]; intros p n b c d f0 ds Hn Hfuel Hlen Hall;
    [lia|].
  cbn [p_smaller_loop]. destruct (n <? 100)%Z eqn:En.
  - apply Z.ltb_lt in En. lentz_loop_step.
    destruct (lentz_converged delta) eqn:Ec.
    + exists (delta :: ds). split; [reflexivity|]. split.
      * cbn [length]. lia.
      * cbn [lentz_trace_ok]. rewrite Ec, Hall. reflexivity.
    + change (lentz_product f0 ds * delta) with (lentz_product f0 (delta :: ds)).
      apply IH; try lia.
      * cbn [length]. lia.
      * cbn [forallb]. unfold not_converged at 1. now rewrite Ec.
  - apply Z.ltb_ge in En. assert (n = 100%Z) by lia. subst n.
    exists ds. split; [reflexivity|].
    change (Z.to_nat (100 - 1)) with 99%nat in Hlen.
    split; [lia|].
    destruct ds as [|d0 ds]; [discriminate|].
    cbn [lentz_trace_ok]. cbn [forallb] in Hall.
    apply andb_prop in Hall as [_ Hall].
    rewrite Hall, Hlen. apply orb_true_r.
Qed.

(** A loop that returned returns the same with more fuel. *)
Lemma x_smaller_loop_mono (fuel : nat) :
  forall (fuel' : nat) (r s : float) (n : Z) (b c d f : float)
         (ds : list float) (res : float * list float),
  (fuel <= fuel')%nat ->
  x_smaller_loop fuel r s n b c d f ds = Some res ->
  x_smaller_loop fuel' r s n b c d f ds = Some res.
Proof.
  induction fuel as [|fuel IH]; intros fuel' r s n b c d f ds res Hle H;
    [discriminate|].
  destruct fuel' as [|fuel']; [lia|]. cbn [x_smaller_loop] in *.
  destruct (n <? 100)%Z; [|exact H].
  destruct (lentz_update _ _ _ _ _) as [[[c' d'] f'] delta].
  destruct (lentz_converged delta); [exact H|]. apply IH; [lia | exact H].
Qed.

Lemma p_smaller_loop_mono (fuel : nat) :
  forall (fuel' : nat) (p : float) (n : Z) (b c d f : float)
         (ds : list float) (res : float * list float),
  (fuel <= fuel')%nat ->
  p_smaller_loop fuel p n b c d f ds = Some res ->
  p_smaller_loop fuel' p n b c d f ds = Some res.
Proof.
  induction fuel as [|fuel IH]; intros fuel' p n b c d f ds res Hle H;
    [discriminate|].
  destruct fuel' as [|fuel']; [lia|]. cbn [p_smaller_loop] in *.
  destruct (n <? 100)%Z; [|exact H].
  destruct (lentz_update _ _ _ _ _) as [[[c' d'] f'] delta].
  destruct (lentz_converged delta); [exact H|]. apply IH; [lia | exact H].
Qed.

(** Claim C6.  Each continued fraction returns, on every pair of doubles,
    after at most 100 iterations of its loop (98 for [confluent_x_smaller],
    99 for [confluent_p_smaller]): the loop is left at the first iteration
    whose [delta] satisfies [|delta - 1| < 1e-7], or else at the cap, and
    the value returned is the partial value [f] reached there, the first
    term times the deltas of the iterations run.  No outcome other than
    this value exists, and more fuel changes nothing. *)
Theorem confluent_terminates (p x : float) :
  (exists f ds,
     confluent_x_smaller_run LENTZ_FUEL p x = Some (f, ds) /\
     confluent_x_smaller p x = Some f /\
     (length ds <= 100)%nat /\ lentz_trace_ok 98 ds = true /\
     f = lentz_product (1 / p) ds /\
     forall fuel, (LENTZ_FUEL <= fuel)%nat ->
                  confluent_x_smaller_run fuel p x = Some (f, ds)) /\
  (exists f ds,
     confluent_p_smaller_run LENTZ_FUEL p x = Some (f, ds) /\
     confluent_p_smaller p x = Some f /\
     (length ds <= 100)%nat /\ lentz_trace_ok 99 ds = true /\
     f = lentz_product (1 / (x - p + 1)) ds /\
     forall fuel, (LENTZ_FUEL <= fuel)%nat ->
                  confluent_p_smaller_run fuel p x = Some (f, ds)).
Proof.
  split.
  - destruct (x_smaller_loop_spec LENTZ_FUEL (- (p - 1) * x) (0.5 * x) 2 p
                (1 / DBL_MIN) (1 / p) (1 / p) [])
      as (ds & Hrun & Hlen & Hok);
      [lia | vm_compute; lia | reflexivity | reflexivity |].
    change (confluent_x_smaller_run LENTZ_FUEL p x
            = Some (lentz_product (1 / p) ds, ds)) in Hrun.
    exists (lentz_product (1 / p) ds), ds.
    repeat split; try assumption; try lia.
    + unfold confluent_x_smaller. now rewrite Hrun.
    + intros fuel Hfuel. eapply x_smaller_loop_mono; eassumption.
  - destruct (p_smaller_loop_spec LENTZ_FUEL p 1 (x - p + 1)
                (1 / DBL_MIN) (1 / (x - p + 1)) (1 / (x - p + 1)) [])
      as (ds & Hrun & Hlen & Hok);
      [lia | vm_compute; lia | reflexivity | reflexivity |].
    change (confluent_p_smaller_run LENTZ_FUEL p x
            = Some (lentz_product (1 / (x - p + 1)) ds, ds)) in Hrun.
    exists (lentz_product (1 / (x - p + 1)) ds), ds.
    repeat split; try assumption; try lia.
    + unfold confluent_p_smaller. now rewrite Hrun.
    + intros fuel Hfuel. eapply p_smaller_loop_mono; eassumption.
Qed.

End ConfluentFacts.

(** ** [pgm_gammaq] *)

Module GammaqFacts.

Import Double Pgm FloatFacts.
Local Open Scope float_scope.

(** At [x = 0] the integer fast path returns [exp(-0)], that is [1] with
    a [libm] that follows Annex F of the C standard. *)
Lemma gammaq_integer_at_zero (M : libm) (k : nat) :
  exp M (- 0) = 1 -> (1 <= k < 30)%nat ->
  pgm_gammaq M (of_size_t (Z.of_nat k)) 0 true = Some 1.
Proof.
  intros He [H1 H2]. vm_compute in He. destruct k as [|k]; [lia|].
  do 29 (destruct k as [|k]; [vm_compute; rewrite He; reflexivity|]).
  lia.
Qed.

(** So does the continued fraction, here at [p = 0.3] with the reference
    [libm]. *)
Lemma gammaq_general_at_zero :
  pgm_gammaq RefLibm.ref_libm 0.3 0 true = Some 1.
Proof. vm_compute. reflexivity. Qed.

(** Claim C1, which the code breaks on the half-integer path.  For every
    half-integer shape [p = k + 0.5 < 30] and every [libm],
    [pgm_gammaq(p, 0, true)] is NaN, not 1: the finite series is [+0] at
    [x = 0] and line 467 divides it by [sqrt(0) = 0]. *)
Theorem gammaq_half_integer_at_zero (M : libm) (k : nat) :
  (k < 30)%nat ->
  pgm_gammaq M (of_size_t (Z.of_nat k) + 0.5) 0 true = Some nan.
Proof.
  intros Hk.
  do 30 (destruct k as [|k];
         [vm_compute; f_equal; apply zero_over_zero_term|]).
  lia.
Qed.

Lemma gammaq_one_half_at_zero :
  pgm_gammaq RefLibm.ref_libm (of_size_t (Z.of_nat 0) + 0.5) 0 true = Some nan.
Proof. apply (gammaq_half_integer_at_zero RefLibm.ref_libm 0). lia. Defined.

(** The branches of [pgm_gammaq] that are not normalized, with the
    argument of each [exp] written as a clamp. *)
Lemma gammaq_unnormalized_unfold (M : libm) (p x : float) :
  pgm_gammaq M p x false =
    (if x <=? p then
       f <- confluent_x_smaller p x ;;
       lgam <- pgm_lgamma M p ;;
       Some ((1 - f * exp M (clamp_both (- x + p * log M x - lgam)))
             * exp M (clamp_above lgam))
     else
       f <- confluent_p_smaller p x ;;
       Some (f * exp M (clamp_above (- x + p * log M x)))).
Proof.
  unfold pgm_gammaq, gammaq_continued_fraction, clamp_both, clamp_above.
  destruct (x <=? p).
  - destruct (confluent_x_smaller p x) as [f|]; [|reflexivity]. cbn [bind].
    destruct (pgm_lgamma M p) as [lgam|]; [|reflexivity]. cbn [bind].
    destruct (PGM_MAX_EXP <=? lgam);
    destruct (PGM_MAX_EXP <=? - x + p * log M x - lgam); try reflexivity;
    destruct (- x + p * log M x - lgam <=? - PGM_MAX_EXP); reflexivity.
  - destruct (confluent_p_smaller p x) as [f|]; [|reflexivity]. cbn [bind].
    destruct (PGM_MAX_EXP <=? - x + p * log M x); reflexivity.
Qed.

Lemma clamp_both_range (a : float) :
  is_nan a = false -> in_exp_range (clamp_both a) = true.
Proof.
  intros Ha. unfold clamp_both, in_exp_range.
  destruct (PGM_MAX_EXP <=? a) eqn:E1; [reflexivity|].
  destruct (a <=? - PGM_MAX_EXP) eqn:E2; [reflexivity|].
  apply leb_false_ltb in E1; [|reflexivity|exact Ha].
  apply leb_false_ltb in E2; [|exact Ha|reflexivity].
  now rewrite (ltb_leb _ _ E1), (ltb_leb _ _ E2).
Qed.

Lemma clamp_above_range (a : float) :
  is_nan a = false -> (clamp_above a <=? PGM_MAX_EXP) = true.
Proof.
  intros Ha. unfold clamp_above.
  destruct (PGM_MAX_EXP <=? a) eqn:E1; [reflexivity|].
  apply leb_false_ltb in E1; [|reflexivity|exact Ha]. now apply ltb_leb.
Qed.

(** Claim C2, as amended.  With [normalized = false]:
    - in the regime [x <= p] the argument of [exp] is
      [-x + p log x - lgamma(p)] clamped on both sides, so it lies in
      [[-PGM_MAX_EXP, PGM_MAX_EXP]] unless it is NaN, and [exp(lgamma(p))]
      is [exp(PGM_MAX_EXP)] when [lgamma(p) >= PGM_MAX_EXP];
    - in the regime [x > p] the argument [-x + p log x] is clamped from
      above only (it is at most [PGM_MAX_EXP] unless NaN); there is no
      lower clamp, and no [exp(lgamma(p))] factor at all. *)
Theorem gammaq_unnormalized_clamp (M : libm) (p x : float) :
  pgm_gammaq M p x false =
    (if x <=? p then
       f <- confluent_x_smaller p x ;;
       lgam <- pgm_lgamma M p ;;
       Some ((1 - f * exp M (clamp_both (- x + p * log M x - lgam)))
             * exp M (clamp_above lgam))
     else
       f <- confluent_p_smaller p x ;;
       Some (f * exp M (clamp_above (- x + p * log M x)))) /\
  (forall a, is_nan a = false -> in_exp_range (clamp_both a) = true) /\
  (forall a, is_nan a = false -> (clamp_above a <=? PGM_MAX_EXP) = true) /\
  (forall a, (PGM_MAX_EXP <=? a) = true -> clamp_above a = PGM_MAX_EXP) /\
  (forall a, (PGM_MAX_EXP <=? a) = false -> clamp_above a = a).
Proof.
  split; [apply gammaq_unnormalized_unfold|].
  split; [exact clamp_both_range|].
  split; [exact clamp_above_range|].
  split; intros a Ha; unfold clamp_above; now rewrite Ha.
Qed.

(** Claim C2 as stated fails in the regime [x > p]: at [p = 1],
    [x = 1000] the argument handed to [exp] is about [-993.09], a number
    below [-PGM_MAX_EXP]. *)
Lemma gammaq_p_smaller_no_floor :
  (1000 <=? 1) = false /\
  is_nan (clamp_above (- 1000 + 1 * log RefLibm.ref_libm 1000)) = false /\
  in_exp_range (clamp_above (- 1000 + 1 * log RefLibm.ref_libm 1000)) = false /\
  (clamp_above (- 1000 + 1 * log RefLibm.ref_libm 1000) <? - PGM_MAX_EXP) = true /\
  exists f,
    confluent_p_smaller 1 1000 = Some f /\
    pgm_gammaq RefLibm.ref_libm 1 1000 false
      = Some (f * exp RefLibm.ref_libm
                    (clamp_above (- 1000 + 1 * log RefLibm.ref_libm 1000))).
Proof.
  repeat split; try (vm_compute; reflexivity).
  eexists. split; vm_compute; reflexivity.
Qed.

(** The series of the integer fast path, once it has overflowed, makes
    the fast path return NaN or an infinity whatever [exp] returns: a
    value within [1e-7] of no double. *)
Lemma overflowed_series_result (v y : float) :
  not_finite (v * infinity) /\ agree_within 1e-7 (v * infinity) y = false.
Proof.
  split; [apply mul_infinity_cases|].
  unfold agree_within, fabs.
  eapply abs_sub_not_finite_leb; [apply mul_infinity_cases|].
  vm_compute. reflexivity.
Qed.

(** Claim C8, which the code breaks for large [x].  At [p = 29],
    [x = 2e12] and at [p = 3], [x = 1e308] the series of the fast path
    overflows to [+inf] (line 455) and the fast path returns
    [exp(-x) * inf]: NaN or an infinity for every [libm], which is within
    [1e-7] of no double [y].  The continued fraction returns [0] on both
    inputs (with the reference [libm]). *)
Theorem gammaq_integer_series_overflow (M : libm) (y : float) :
  (exists v, pgm_gammaq M 29 2e12 true = Some v /\ not_finite v /\
             agree_within 1e-7 v y = false) /\
  (exists v, pgm_gammaq M 3 1e308 true = Some v /\ not_finite v /\
             agree_within 1e-7 v y = false) /\
  gammaq_continued_fraction RefLibm.ref_libm 29 2e12 true = Some 0 /\
  gammaq_continued_fraction RefLibm.ref_libm 3 1e308 true = Some 0.
Proof.
  split; [|split; [|split; vm_compute; reflexivity]].
  - exists (exp M (- 2e12) * infinity).
    split; [vm_compute; reflexivity | apply overflowed_series_result].
  - exists (exp M (- 1e308) * infinity).
    split; [vm_compute; reflexivity | apply overflowed_series_result].
Qed.

End GammaqFacts.

(** ** The sampler *)

Module SamplerFacts.

Import Sampler.

(** *** Fuel *)

Section Fuel.

Context {A : arith} (G : bitgen A).

Lemma dagpunar_loop_mono (fuel : nat) :
  forall (fuel' : nat) (b c0 amin1 omc log_m : num A) (st : bitgen_t G)
         (res : num A * bitgen_t G),
  (fuel <= fuel')%nat ->
  dagpunar_loop G fuel b c0 amin1 omc log_m st = Some res ->
  dagpunar_loop G fuel' b c0 amin1 omc log_m st = Some res.
Proof.
  induction fuel as [|fuel IH]; intros fuel' b c0 amin1 omc log_m st res Hle H;
    [discriminate|].
  destruct fuel' as [|fuel']; [lia|]. cbn in *.
  destruct (random_standard_exponential G st) as [e st1].
  destruct (random_standard_uniform G st1) as [u st2].
  destruct (gt A _ _); [|exact H]. apply IH; [lia|exact H].
Qed.

Lemma philippe_loop_mono (fuel : nat) :
  forall (fuel' : nat) (amin1 tb : num A) (st : bitgen_t G)
         (res : num A * bitgen_t G),
  (fuel <= fuel')%nat ->
  philippe_loop G fuel amin1 tb st = Some res ->
  philippe_loop G fuel' amin1 tb st = Some res.
Proof.
  induction fuel as [|fuel IH]; intros fuel' amin1 tb st res Hle H;
    [discriminate|].
  destruct fuel' as [|fuel']; [lia|]. cbn in *.
  destruct (random_standard_exponential G st) as [e st1].
  destruct (random_standard_uniform G st1) as [u st2].
  destruct (gt A _ _); [|exact H]. apply IH; [lia|exact H].
Qed.

Lemma sampler_mono (fuel fuel' : nat) (st : bitgen_t G) (a b t : num A)
    (res : num A * bitgen_t G) :
  (fuel <= fuel')%nat ->
  random_left_bounded_gamma G fuel st a b t = Some res ->
  random_left_bounded_gamma G fuel' st a b t = Some res.
Proof.
  unfold random_left_bounded_gamma. intros Hle H.
  destruct (gt A a (one A)).
  - destruct (dagpunar_loop G fuel _ _ _ _ _ _) as [r|] eqn:E; [|discriminate].
    now rewrite (dagpunar_loop_mono _ _ _ _ _ _ _ _ _ Hle E).
  - destruct (eq A a (one A)); [exact H|].
    destruct (philippe_loop G fuel _ _ _) as [r|] eqn:E; [|discriminate].
    now rewrite (philippe_loop_mono _ _ _ _ _ _ Hle E).
Qed.

(** Two runs that return, from one state and on one input, return the
    same sample and leave the same state, whatever fuel each had. *)
Lemma sampler_functional (fuel1 fuel2 : nat) (st : bitgen_t G)
    (a b t : num A) (r1 r2 : num A * bitgen_t G) :
  random_left_bounded_gamma G fuel1 st a b t = Some r1 ->
  random_left_bounded_gamma G fuel2 st a b t = Some r2 ->
  r1 = r2.
Proof.
  intros H1 H2.
  apply (sampler_mono _ (Nat.max fuel1 fuel2)) in H1; [|lia].
  apply (sampler_mono _ (Nat.max fuel1 fuel2)) in H2; [|lia].
  congruence.
Qed.

End Fuel.

(** *** Draws *)

Section Draws.

Context {A : arith} (G : bitgen A).

(** An iteration of either loop makes one draw of each kind. *)
Lemma dagpunar_loop_draws (fuel : nat) :
  forall (b c0 amin1 omc log_m : num A) (st : bitgen_t G) (ne nu : nat)
         (x : num A) (st' : bitgen_t G) (ne' nu' : nat),
  dagpunar_loop (counting G) fuel b c0 amin1 omc log_m (st, (ne, nu))
    = Some (x, (st', (ne', nu'))) ->
  exists k, (1 <= k)%nat /\ ne' = (ne + k)%nat /\ nu' = (nu + k)%nat.
Proof.
  induction fuel as [|fuel IH];
    intros b c0 amin1 omc log_m st ne nu x st' ne' nu' H; [discriminate|].
  cbn in H.
  destruct (random_standard_exponential G st) as [e st1].
  destruct (random_standard_uniform G st1) as [u st2].
  destruct (gt A _ _).
  - apply IH in H as (k & Hk & -> & ->). exists (S k). lia.
  - injection H as _ _ <- <-. exists 1%nat. lia.
Qed.

Lemma philippe_loop_draws (fuel : nat) :
  forall (amin1 tb : num A) (st : bitgen_t G) (ne nu : nat)
         (x : num A) (st' : bitgen_t G) (ne' nu' : nat),
  philippe_loop (counting G) fuel amin1 tb (st, (ne, nu))
    = Some (x, (st', (ne', nu'))) ->
  exists k, (1 <= k)%nat /\ ne' = (ne + k)%nat /\ nu' = (nu + k)%nat.
Proof.
  induction fuel as [|fuel IH]; intros amin1 tb st ne nu x st' ne' nu' H;
    [discriminate|].
  cbn in H.
  destruct (random_standard_exponential G st) as [e st1].
  destruct (random_standard_uniform G st1) as [u st2].
  destruct (gt A _ _).
  - apply IH in H as (k & Hk & -> & ->). exists (S k). lia.
  - injection H as _ _ <- <-. exists 1%nat. lia.
Qed.

(** The counters do not change a run: what [counting G] returns is what
    [G] returns. *)
Lemma dagpunar_loop_counting (fuel : nat) :
  forall (b c0 amin1 omc log_m : num A) (st : bitgen_t G) (cnt : nat * nat),
  option_map (fun r => (fst r, fst (snd r)))
    (dagpunar_loop (counting G) fuel b c0 amin1 omc log_m (st, cnt))
  = dagpunar_loop G fuel b c0 amin1 omc log_m st.
Proof.
  induction fuel as [|fuel IH]; intros b c0 amin1 omc log_m st [ne nu];
    [reflexivity|].
  cbn. destruct (random_standard_exponential G st) as [e st1].
  destruct (random_standard_uniform G st1) as [u st2].
  destruct (gt A _ _); [apply IH | reflexivity].
Qed.

Lemma philippe_loop_counting (fuel : nat) :
  forall (amin1 tb : num A) (st : bitgen_t G) (cnt : nat * nat),
  option_map (fun r => (fst r, fst (snd r)))
    (philippe_loop (counting G) fuel amin1 tb (st, cnt))
  = philippe_loop G fuel amin1 tb st.
Proof.
  induction fuel as [|fuel IH]; intros amin1 tb st [ne nu]; [reflexivity|].
  cbn. destruct (random_standard_exponential G st) as [e st1].
  destruct (random_standard_uniform G st1) as [u st2].
  destruct (gt A _ _); [apply IH | reflexivity].
Qed.

Lemma sampler_counting (fuel : nat) (st : bitgen_t G) (cnt : nat * nat)
    (a b t : num A) :
  option_map (fun r => (fst r, fst (snd r)))
    (random_left_bounded_gamma (counting G) fuel (st, cnt) a b t)
  = random_left_bounded_gamma G fuel st a b t.
Proof.
  unfold random_left_bounded_gamma. destruct (gt A a (one A)).
  - rewrite <- (dagpunar_loop_counting fuel _ _ _ _ _ st cnt).
    destruct (dagpunar_loop (counting G) _ _ _ _ _ _ _)
      as [[x [st1 cnt1]]|]; reflexivity.
  - destruct (eq A a (one A)).
    + destruct cnt as [ne nu]. cbn.
      destruct (random_standard_exponential G st) as [e st1]. reflexivity.
    + rewrite <- (philippe_loop_counting fuel _ _ st cnt).
      destruct (philippe_loop (counting G) _ _ _ _)
        as [[x [st1 cnt1]]|]; reflexivity.
Qed.

(** Claim C3, as amended.  A call that returns has drawn at least one
    standard exponential, in every regime.  In the regimes [a > 1] and
    [a < 1] it has drawn as many standard uniforms as exponentials (one
    of each per iteration, so at least one).  In the regime [a == 1] it
    has drawn exactly one exponential and no uniform. *)
Theorem sampler_draws (fuel : nat) (st : bitgen_t G) (a b t x : num A)
    (st' : bitgen_t G) (ne nu : nat) :
  random_left_bounded_gamma (counting G) fuel (st, (0, 0)%nat) a b t
    = Some (x, (st', (ne, nu))) ->
  (1 <= ne)%nat /\
  match sampler_regime a with
  | Exponential => ne = 1%nat /\ nu = 0%nat
  | Dagpunar | Philippe => nu = ne
  end.
Proof.
  unfold random_left_bounded_gamma, sampler_regime. intros H.
  destruct (gt A a (one A)).
  - destruct (dagpunar_loop _ _ _ _ _ _ _ _) as [[x1 [st1 [ne1 nu1]]]|] eqn:E;
      [|discriminate].
    cbn in H. injection H as _ _ <- <-.
    apply dagpunar_loop_draws in E as (k & Hk & -> & ->). lia.
  - destruct (eq A a (one A)).
    + cbn in H. destruct (random_standard_exponential G st) as [e st1].
      injection H as _ _ <- <-. lia.
    + destruct (philippe_loop _ _ _ _ _) as [[x1 [st1 [ne1 nu1]]]|] eqn:E;
        [|discriminate].
      cbn in H. injection H as _ _ <- <-.
      apply philippe_loop_draws in E as (k & Hk & -> & ->). lia.
Qed.

End Draws.

(** The case of the specification's test, [a = 2], [b = 1], [t = 3]: the
    first proposal is accepted after one draw of each kind. *)
Lemma sampler_draws_dagpunar_run :
  random_left_bounded_gamma (counting tape64) 1
    ([0.5; 0.5]%float, (0, 0)%nat) 2%float 1%float 3%float
  = Some (3.6513878188659974%float, ([], (1, 1)%nat)) /\
  sampler_regime (A := binary64 RefLibm.ref_libm) 2%float = Dagpunar /\
  (1 <= 1)%nat /\ 1%nat = 1%nat.
Proof.
  assert (Hrun : random_left_bounded_gamma (counting tape64) 1
                   ([0.5; 0.5]%float, (0, 0)%nat) 2%float 1%float 3%float
                 = Some (3.6513878188659974%float, ([], (1, 1)%nat)))
    by (vm_compute; reflexivity).
  split; [exact Hrun|]. split; [reflexivity|].
  exact (sampler_draws tape64 1 [0.5; 0.5]%float 2%float 1%float 3%float
           3.6513878188659974%float [] 1 1 Hrun).
Defined.

(** Claim C3 as stated fails in the regime [a == 1]: with [a = 1],
    [b = 2], [t = 3] the call returns [3 + 1.5 / 2] after one exponential
    draw and no uniform draw. *)
Lemma sampler_exponential_no_uniform :
  random_left_bounded_gamma (counting tape64) 0 ([1.5]%float, (0, 0)%nat)
    1%float 2%float 3%float
  = Some (3.75%float, ([], (1, 0)%nat)).
Proof. vm_compute. reflexivity. Qed.

(** *** The sample and the truncation point *)

Section Proposals.

Context {A : arith} (G : bitgen A).

Local Open Scope num_scope.



End Proposals.

Section Truncation.

Import Double FloatFacts OrderFacts RateFacts.

Variable M : Double.libm.
Variable G : bitgen (binary64 M).

Local Open Scope float_scope.


End Truncation.





End SamplerFacts.

(** * Edge behaviour and invariants

    What the kernels do at the edges of their domains (NaN, infinities,
    zeros, arguments out of range), where their behaviour is undefined,
    and invariants their loops keep. *)

(** ** The order of binary64 on integers *)

Module RankFacts.
Import Double FloatFacts RoundingFacts.
Local Open Scope Z_scope.

(** The exponent and the rank of a valid finite double. *)
Lemma bounded_exponent (m : positive) (e : Z) :
  SpecFloat.bounded prec emax m e = true -> e <= 971.
Proof.
  unfold SpecFloat.bounded. intros H. apply andb_prop in H as [_ H].
  apply Z.leb_le in H. exact H.
Qed.

Lemma rank_finite_bounds (m : positive) (e : Z) :
  SpecFloat.bounded prec emax m e = true ->
  0 < (e + 1075) * 2 ^ 53 + Zpos m < 2 ^ 64.
Proof.
  intros H. pose proof (bounded_exponent _ _ H) as He.
  pose proof (bounded_digits _ _ H) as (_ & He' & _).
  pose proof (bounded_mantissa _ _ H) as [Hm _].
  change (2 ^ 64) with (2048 * 2 ^ 53).
  set (B := 2 ^ 53) in *. assert (0 < B) by (subst B; reflexivity). nia.
Qed.

(** On valid mantissas the order of [(e, m)] is the order of the ranks. *)
Lemma rank_finite_compare (m1 m2 : positive) (e1 e2 : Z) :
  SpecFloat.bounded prec emax m1 e1 = true ->
  SpecFloat.bounded prec emax m2 e2 = true ->
  match (e1 ?= e2) with
  | Lt => Lt
  | Gt => Gt
  | Eq => Pos.compare_cont Eq m1 m2
  end = ((e1 + 1075) * 2 ^ 53 + Zpos m1 ?= (e2 + 1075) * 2 ^ 53 + Zpos m2).
Proof.
  intros H1 H2.
  pose proof (bounded_mantissa _ _ H1) as [Hm1 _].
  pose proof (bounded_mantissa _ _ H2) as [Hm2 _].
  set (B := 2 ^ 53) in *. assert (0 < B) by (subst B; reflexivity).
  symmetry.
  destruct (Z.compare_spec e1 e2) as [He|He|He].
  - subst e2. change (Pos.compare_cont Eq m1 m2) with (Pos.compare m1 m2).
    destruct (Pos.compare_spec m1 m2) as [E|E|E].
    + subst m2. apply Z.compare_refl.
    + apply Pos2Z.pos_lt_pos in E. apply Z.compare_lt_iff. lia.
    + apply Pos2Z.pos_lt_pos in E. apply Z.compare_gt_iff. lia.
  - apply Z.compare_lt_iff. nia.
  - apply Z.compare_gt_iff. nia.
Qed.

(** [SFcompare] on numbers is the comparison of their ranks. *)
Lemma SFcompare_rank (x y : spec_float) :
  valid_binary x = true -> valid_binary y = true ->
  x <> S754_nan -> y <> S754_nan ->
  SFcompare x y = Some (rank x ?= rank y).
Proof.
  intros Vx Vy Nx Ny.
  destruct x as [sx|sx| |sx mx ex], y as [sy|sy| |sy my ey];
    try congruence; cbn [valid_binary] in Vx, Vy;
    try pose proof (rank_finite_bounds _ _ Vx) as Bx;
    try pose proof (rank_finite_bounds _ _ Vy) as By;
    unfold SFcompare, rank; cbv zeta.
  - reflexivity.
  - destruct sy; reflexivity.
  - set (k := (ey + 1075) * 2 ^ 53 + Zpos my) in *.
    destruct sy; f_equal; symmetry;
      [apply Z.compare_gt_iff | apply Z.compare_lt_iff]; lia.
  - destruct sx; reflexivity.
  - destruct sx, sy; reflexivity.
  - set (k := (ey + 1075) * 2 ^ 53 + Zpos my) in *.
    destruct sx, sy; f_equal; symmetry;
      try (apply Z.compare_gt_iff; lia); apply Z.compare_lt_iff; lia.
  - set (k := (ex + 1075) * 2 ^ 53 + Zpos mx) in *.
    destruct sx; f_equal; symmetry;
      [apply Z.compare_lt_iff | apply Z.compare_gt_iff]; lia.
  - set (k := (ex + 1075) * 2 ^ 53 + Zpos mx) in *.
    destruct sx, sy; f_equal; symmetry;
      try (apply Z.compare_gt_iff; lia); apply Z.compare_lt_iff; lia.
  - pose proof (rank_finite_compare _ _ _ _ Vx Vy) as H1.
    pose proof (rank_finite_compare _ _ _ _ Vy Vx) as H2.
    set (kx := (ex + 1075) * 2 ^ 53 + Zpos mx) in *.
    set (ky := (ey + 1075) * 2 ^ 53 + Zpos my) in *.
    destruct sx, sy.
    + rewrite Z.compare_opp, <- H2, (Z.compare_antisym ey ex).
      destruct (ey ?= ex); cbn [CompOpp]; try reflexivity.
      now rewrite (Pos.compare_cont_antisym mx my Eq).
    + f_equal. symmetry. apply Z.compare_lt_iff. lia.
    + f_equal. symmetry. apply Z.compare_gt_iff. lia.
    + f_equal. rewrite <- H1. destruct (ex ?= ey); reflexivity.
Qed.

Local Open Scope float_scope.

Lemma not_nan_Prim2SF (x : float) : Prim2SF x <> S754_nan -> is_nan x = false.
Proof.
  intros H. unfold is_nan. rewrite eqb_spec.
  destruct (Prim2SF x) as [s|s| |s m e]; try reflexivity; try congruence.
  - destruct s; reflexivity.
  - unfold SFeqb, SFcompare. destruct s; rewrite Z.compare_refl;
    change (Pos.compare_cont Eq m m) with (Pos.compare m m);
    rewrite Pos.compare_refl; reflexivity.
Qed.

Lemma compare_rank (x y : float) :
  Prim2SF x <> S754_nan -> Prim2SF y <> S754_nan ->
  SFcompare (Prim2SF x) (Prim2SF y)
  = Some (rank (Prim2SF x) ?= rank (Prim2SF y))%Z.
Proof. intros. apply SFcompare_rank; auto using Prim2SF_valid. Qed.

(** The comparisons of C, read on ranks: each holds between two numbers
    in that order, and fails on a NaN. *)
Lemma ltb_rank (x y : float) :
  (x <? y) = true <->
  Prim2SF x <> S754_nan /\ Prim2SF y <> S754_nan /\
  (rank (Prim2SF x) < rank (Prim2SF y))%Z.
Proof.
  rewrite ltb_spec. unfold SFltb. split.
  - intros H.
    assert (Nx : Prim2SF x <> S754_nan) by (intros E; rewrite E in H; discriminate).
    assert (Ny : Prim2SF y <> S754_nan)
      by (intros E; rewrite E in H; destruct (Prim2SF x); discriminate).
    rewrite (compare_rank x y Nx Ny) in H. repeat split; auto.
    unfold Z.lt. destruct (rank (Prim2SF x) ?= rank (Prim2SF y))%Z; congruence.
  - intros (Nx & Ny & H). rewrite (compare_rank x y Nx Ny).
    apply Z.compare_lt_iff in H. now rewrite H.
Qed.

Lemma leb_rank (x y : float) :
  (x <=? y) = true <->
  Prim2SF x <> S754_nan /\ Prim2SF y <> S754_nan /\
  (rank (Prim2SF x) <= rank (Prim2SF y))%Z.
Proof.
  rewrite leb_spec. unfold SFleb. split.
  - intros H.
    assert (Nx : Prim2SF x <> S754_nan) by (intros E; rewrite E in H; discriminate).
    assert (Ny : Prim2SF y <> S754_nan)
      by (intros E; rewrite E in H; destruct (Prim2SF x); discriminate).
    rewrite (compare_rank x y Nx Ny) in H. repeat split; auto.
    unfold Z.le. destruct (rank (Prim2SF x) ?= rank (Prim2SF y))%Z; congruence.
  - intros (Nx & Ny & H). rewrite (compare_rank x y Nx Ny).
    apply Z.compare_le_iff in H. destruct (rank (Prim2SF x) ?= rank (Prim2SF y))%Z; cbn in *; congruence.
Qed.

Lemma eqb_rank (x y : float) :
  (x =? y) = true <->
  Prim2SF x <> S754_nan /\ Prim2SF y <> S754_nan /\
  rank (Prim2SF x) = rank (Prim2SF y).
Proof.
  rewrite eqb_spec. unfold SFeqb. split.
  - intros H.
    assert (Nx : Prim2SF x <> S754_nan) by (intros E; rewrite E in H; discriminate).
    assert (Ny : Prim2SF y <> S754_nan)
      by (intros E; rewrite E in H; destruct (Prim2SF x); discriminate).
    rewrite (compare_rank x y Nx Ny) in H. repeat split; auto.
    apply Z.compare_eq_iff. destruct (rank (Prim2SF x) ?= rank (Prim2SF y))%Z; congruence.
  - intros (Nx & Ny & H). rewrite (compare_rank x y Nx Ny).
    apply Z.compare_eq_iff in H. now rewrite H.
Qed.

Lemma ltb_false_rank (x y : float) :
  (x <? y) = false <->
  Prim2SF x = S754_nan \/ Prim2SF y = S754_nan \/
  (rank (Prim2SF y) <= rank (Prim2SF x))%Z.
Proof.
  split.
  - intros H.
    destruct (Prim2SF x) eqn:Ex; auto; destruct (Prim2SF y) eqn:Ey; auto;
      right; right; apply Z.nlt_ge; intros Hlt;
      assert (Hc : (x <? y) = true)
        by (apply ltb_rank; rewrite Ex, Ey; repeat split; try discriminate; exact Hlt);
      congruence.
  - intros H. destruct (x <? y) eqn:E; [|reflexivity].
    apply ltb_rank in E as (Nx & Ny & Hlt).
    destruct H as [H|[H|H]]; [congruence | congruence | lia].
Qed.

Lemma leb_false_rank (x y : float) :
  (x <=? y) = false <->
  Prim2SF x = S754_nan \/ Prim2SF y = S754_nan \/
  (rank (Prim2SF y) < rank (Prim2SF x))%Z.
Proof.
  split.
  - intros H.
    destruct (Prim2SF x) eqn:Ex; auto; destruct (Prim2SF y) eqn:Ey; auto;
      right; right; apply Z.nle_gt; intros Hlt;
      assert (Hc : (x <=? y) = true)
        by (apply leb_rank; rewrite Ex, Ey; repeat split; try discriminate; exact Hlt);
      congruence.
  - intros H. destruct (x <=? y) eqn:E; [|reflexivity].
    apply leb_rank in E as (Nx & Ny & Hlt).
    destruct H as [H|[H|H]]; [congruence | congruence | lia].
Qed.

(** [x < c] fails, [c' <= c]: [x < c'] fails. *)
Lemma ltb_false_below (x c c' : float) :
  (x <? c) = false -> (c' <=? c) = true -> (x <? c') = false.
Proof.
  intros H Hc. apply ltb_false_rank in H. apply leb_rank in Hc as (N' & N & Hc).
  apply ltb_false_rank. destruct H as [H|[H|H]]; auto; [congruence|].
  right. right. lia.
Qed.

(** [c < x] fails, [c <= c']: [c' < x] fails. *)
Lemma ltb_false_above (x c c' : float) :
  (c <? x) = false -> (c <=? c') = true -> (c' <? x) = false.
Proof.
  intros H Hc. apply ltb_false_rank in H. apply leb_rank in Hc as (N' & N & Hc).
  apply ltb_false_rank. destruct H as [H|[H|H]]; auto; [congruence|].
  right. right. lia.
Qed.

Lemma leb_false_above (x c c' : float) :
  (c <? x) = false -> (c <? c') = true -> (c' <=? x) = false.
Proof.
  intros H Hc. apply ltb_false_rank in H. apply ltb_rank in Hc as (N' & N & Hc).
  apply leb_false_rank. destruct H as [H|[H|H]]; auto; [congruence|].
  right. right. lia.
Qed.

End RankFacts.

(** ** The conversion to [size_t] *)

Module CastFacts.
Import Double FloatFacts RoundingFacts OrderFacts RankFacts.
Local Open Scope float_scope.

(** The doubles of each class. *)
Lemma Prim2SF_zero_cases (z : float) (s : bool) :
  Prim2SF z = S754_zero s -> z = 0 \/ z = - 0.
Proof.
  intros H. destruct s; [right|left]; apply Prim2SF_inj; rewrite H; reflexivity.
Qed.

Lemma Prim2SF_infinity_cases (z : float) (s : bool) :
  Prim2SF z = S754_infinity s -> z = infinity \/ z = neg_infinity.
Proof.
  intros H. destruct s; [right|left]; apply Prim2SF_inj; rewrite H; reflexivity.
Qed.

(** A negative double is [<= -1] exactly when its exponent is at least
    [-52]; a positive one is [>= 2^64] exactly when its exponent is at
    least [12]. *)
Lemma compare_with_pow2 (s : bool) (m : positive) (e k : Z) :
  SpecFloat.bounded prec emax m e = true -> (-1074 < k)%Z ->
  SFcompare (S754_finite s m e) (S754_finite s 4503599627370496 k)
  = Some (if (e <? k)%Z then (if s then Gt else Lt)
          else if (e =? k)%Z && (Zpos m =? 2 ^ 52)%Z then Eq
          else (if s then Lt else Gt)).
Proof.
  intros Hb Hk. pose proof (bounded_mantissa _ _ Hb) as [Hm1 Hm2].
  assert (Hc : Zpos 4503599627370496 = (2 ^ 52)%Z) by reflexivity.
  revert Hc. generalize 4503599627370496%positive. intros c Hc.
  unfold SFcompare.
  destruct (Z.compare_spec e k) as [E|E|E].
  - subst k. rewrite Z.ltb_irrefl, Z.eqb_refl. cbn [andb].
    change (Pos.compare_cont Eq m c) with (Pos.compare m c).
    specialize (Hm2 Hk).
    destruct (Pos.compare_spec m c) as [Em|Em|Em].
    + subst c. rewrite Hc, Z.eqb_refl. now destruct s.
    + apply Pos2Z.pos_lt_pos in Em. lia.
    + apply Pos2Z.pos_lt_pos in Em.
      destruct (Z.eqb_spec (Zpos m) (2 ^ 52)) as [E2|E2]; [lia|].
      now destruct s.
  - apply Z.ltb_lt in E. rewrite E. now destruct s.
  - assert (E1 : (e <? k)%Z = false) by (apply Z.ltb_ge; lia).
    assert (E2 : (e =? k)%Z = false) by (apply Z.eqb_neq; lia).
    rewrite E1, E2. now destruct s.
Qed.

Lemma leb_minus_one (z : float) (m : positive) (e : Z) :
  Prim2SF z = S754_finite true m e ->
  (z <=? -1) = negb (e <? -52)%Z.
Proof.
  intros Hz. rewrite leb_spec, Hz.
  change (Prim2SF (-1)) with (S754_finite true 4503599627370496 (-52)).
  unfold SFleb.
  rewrite compare_with_pow2 by (eauto using Prim2SF_bounded || lia).
  destruct (e <? -52)%Z; [reflexivity|].
  destruct ((e =? -52)%Z && _); reflexivity.
Qed.

Lemma leb_two_pow_64 (z : float) (m : positive) (e : Z) :
  Prim2SF z = S754_finite false m e ->
  (0x1p64 <=? z) = negb (e <? 12)%Z.
Proof.
  intros Hz. rewrite leb_spec, Hz.
  change (Prim2SF 0x1p64) with (S754_finite false 4503599627370496 12).
  unfold SFleb.
  rewrite (SFcompare_antisym (S754_finite false m e)).
  rewrite compare_with_pow2 by (eauto using Prim2SF_bounded || lia).
  destruct (e <? 12)%Z; [reflexivity|].
  destruct ((e =? 12)%Z && _); reflexivity.
Qed.

(** The integral part of a finite double, by its exponent. *)
Lemma SFtrunc_finite (z : float) (s : bool) (m : positive) (e : Z) :
  Prim2SF z = S754_finite s m e ->
  exists v, SFtrunc (Prim2SF z) = Some (if s then - v else v)%Z /\
            ((e < -52 -> v = 0) /\
             (-52 <= e -> 1 <= v) /\
             (e < 12 -> v < 2 ^ 64) /\
             (12 <= e -> 2 ^ 64 <= v))%Z.
Proof.
  intros Hz. pose proof (Prim2SF_bounded _ _ _ _ Hz) as Hb.
  pose proof (bounded_mantissa _ _ Hb) as [Hm1 Hm2].
  pose proof (bounded_digits _ _ Hb) as (_ & He & _).
  rewrite Hz. unfold SFtrunc.
  eexists. split; [reflexivity|].
  destruct (0 <=? e)%Z eqn:E0.
  - apply Z.leb_le in E0. specialize (Hm2 ltac:(lia)).
    assert (Hp : (1 <= 2 ^ e)%Z) by (apply (Z.pow_le_mono_r 2 0 e); lia).
    repeat split; intros H; try lia.
    + assert (2 ^ e <= 2 ^ 11)%Z by (apply Z.pow_le_mono_r; lia).
      change (2 ^ 64)%Z with (2 ^ 53 * 2 ^ 11)%Z.
      set (P := (2 ^ e)%Z) in *. set (Q := (2 ^ 11)%Z) in *.
      set (B := (2 ^ 53)%Z) in *. assert (0 < Q)%Z by reflexivity. nia.
    + assert (2 ^ 12 <= 2 ^ e)%Z by (apply Z.pow_le_mono_r; lia).
      change (2 ^ 64)%Z with (2 ^ 52 * 2 ^ 12)%Z.
      set (P := (2 ^ e)%Z) in *. set (Q := (2 ^ 12)%Z) in *.
      set (B := (2 ^ 52)%Z) in *. assert (0 < B)%Z by reflexivity. nia.
  - apply Z.leb_gt in E0.
    assert (Hp : (0 < 2 ^ (- e))%Z) by (apply Z.pow_pos_nonneg; lia).
    repeat split; intros H; try lia.
    + apply Z.div_small. split; [lia|].
      assert (2 ^ 53 <= 2 ^ (- e))%Z by (apply Z.pow_le_mono_r; lia). lia.
    + specialize (Hm2 ltac:(lia)).
      apply Z.div_le_lower_bound; [lia|].
      assert (2 ^ (- e) <= 2 ^ 52)%Z by (apply Z.pow_le_mono_r; lia). lia.
    + assert (Zpos m / 2 ^ (- e) <= Zpos m)%Z; [|lia].
      apply Z.div_le_upper_bound; [lia|]. nia.
Qed.

(** [(size_t)z] is undefined exactly for a NaN, for [z <= -1] and for
    [z >= 2^64]. *)
Lemma to_size_t_undefined (z : float) :
  to_size_t z = None <->
  is_nan z = true \/ (z <=? -1) = true \/ (0x1p64 <=? z) = true.
Proof.
  destruct (Prim2SF z) as [s|s| |s m e] eqn:Hz.
  - destruct (Prim2SF_zero_cases z s Hz) as [-> | ->]; vm_compute;
      split; [discriminate | intros [H|[H|H]]; discriminate
             |discriminate | intros [H|[H|H]]; discriminate].
  - destruct (Prim2SF_infinity_cases z s Hz) as [-> | ->]; vm_compute;
      split; auto.
  - apply Prim2SF_nan in Hz. subst z. vm_compute. split; auto.
  - assert (Hn : is_nan z = false)
      by (apply not_nan_Prim2SF; rewrite Hz; discriminate).
    destruct (SFtrunc_finite z s m e Hz) as (v & Hv & H1 & H2 & H3 & H4).
    unfold to_size_t. rewrite Hv. cbn [bind]. rewrite Hn.
    destruct s.
    + rewrite (leb_minus_one z m e Hz).
      assert (Hb : (0x1p64 <=? z) = false).
      { apply leb_false_rank. right. right. rewrite Hz.
        pose proof (rank_finite_bounds _ _ (Prim2SF_bounded _ _ _ _ Hz)).
        change (Prim2SF 0x1p64) with (S754_finite false 4503599627370496 12).
        unfold rank. cbv zeta.
        set (k := ((e + 1075) * 2 ^ 53 + Zpos m)%Z) in *.
        set (k' := ((12 + 1075) * 2 ^ 53 + Zpos 4503599627370496)%Z).
        assert (0 < k')%Z by reflexivity. lia. }
      rewrite Hb.
      destruct (Z.ltb_spec e (-52)) as [E|E]; cbn [negb].
      * rewrite (H1 E). cbn. split; [discriminate|].
        intros [H|[H|H]]; discriminate.
      * specialize (H2 E).
        assert (E' : ((0 <=? - v) && (- v <=? SIZE_MAX))%Z = false).
        { apply andb_false_intro1. apply Z.leb_gt. lia. }
        rewrite E'. split; auto.
    + rewrite (leb_two_pow_64 z m e Hz).
      assert (Hb : (z <=? -1) = false).
      { apply leb_false_rank. right. right. rewrite Hz.
        pose proof (rank_finite_bounds _ _ (Prim2SF_bounded _ _ _ _ Hz)).
        change (Prim2SF (-1)) with (S754_finite true 4503599627370496 (-52)).
        unfold rank. cbv zeta.
        set (k := ((e + 1075) * 2 ^ 53 + Zpos m)%Z) in *.
        set (k' := ((-52 + 1075) * 2 ^ 53 + Zpos 4503599627370496)%Z).
        assert (0 < k')%Z by reflexivity. lia. }
      rewrite Hb.
      destruct (Z.ltb_spec e 12) as [E|E]; cbn [negb].
      * specialize (H3 E).
        assert (0 <= v)%Z.
        { destruct (Z_lt_le_dec e (-52)); [rewrite H1|specialize (H2 ltac:(lia))]; lia. }
        assert (E' : ((0 <=? v) && (v <=? SIZE_MAX))%Z = true).
        { apply andb_true_intro. split; apply Z.leb_le; unfold SIZE_MAX; lia. }
        rewrite E'. split; [discriminate|].
        intros [H'|[H'|H']]; discriminate.
      * specialize (H4 E).
        assert (E' : ((0 <=? v) && (v <=? SIZE_MAX))%Z = false).
        { apply andb_false_intro2. apply Z.leb_gt. unfold SIZE_MAX. lia. }
        rewrite E'. split; auto.
Qed.

(** Where it is defined on a double below [1] in magnitude, the
    conversion gives [0]. *)
Lemma to_size_t_small (z : float) (s : bool) (m : positive) (e : Z) :
  Prim2SF z = S754_finite s m e -> (e < -52)%Z -> to_size_t z = Some 0%Z.
Proof.
  intros Hz He.
  destruct (SFtrunc_finite z s m e Hz) as (v & Hv & H1 & _).
  unfold to_size_t. rewrite Hv, (H1 He). now destruct s.
Qed.

End CastFacts.

(** ** NaN in the arithmetic operations *)

Module NanFacts.
Import Double FloatFacts.
Local Open Scope float_scope.

Lemma add_nan_l (x : float) : nan + x = nan.
Proof. apply Prim2SF_nan. rewrite add_spec. reflexivity. Qed.

Lemma sub_nan_l (x : float) : nan - x = nan.
Proof. apply Prim2SF_nan. rewrite sub_spec. reflexivity. Qed.

Lemma sub_nan_r (x : float) : x - nan = nan.
Proof.
  apply Prim2SF_nan. rewrite sub_spec. change (Prim2SF nan) with S754_nan.
  destruct (Prim2SF x); reflexivity.
Qed.

Lemma mul_nan_l (x : float) : nan * x = nan.
Proof. apply Prim2SF_nan. rewrite mul_spec. reflexivity. Qed.

Lemma mul_nan (x : float) : x * nan = nan.
Proof.
  apply Prim2SF_nan. rewrite mul_spec. change (Prim2SF nan) with S754_nan.
  destruct (Prim2SF x); reflexivity.
Qed.

Lemma div_nan_num (x : float) : nan / x = nan.
Proof. apply Prim2SF_nan. rewrite div_spec. reflexivity. Qed.

Lemma div_nan_den (x : float) : x / nan = nan.
Proof.
  apply Prim2SF_nan. rewrite div_spec. change (Prim2SF nan) with S754_nan.
  destruct (Prim2SF x); reflexivity.
Qed.

Lemma is_nan_eq (x : float) : is_nan x = true -> x = nan.
Proof.
  unfold is_nan. rewrite eqb_spec. intros H. apply Prim2SF_nan.
  destruct (Prim2SF x) as [s|s| |s m e]; try reflexivity.
  - destruct s; discriminate.
  - destruct s; discriminate.
  - unfold SFeqb, SFcompare in H.
    destruct s; rewrite Z.compare_refl in H;
      change (Pos.compare_cont Eq m m) with (Pos.compare m m) in H;
      rewrite Pos.compare_refl in H; discriminate.
Qed.

End NanFacts.

(** ** Signs, sums and differences *)

Module SignFacts.
Import Double FloatFacts RoundingFacts OrderFacts.
Local Open Scope float_scope.

Lemma not_negative_ltb (f : float) :
  sf_not_negative (Prim2SF f) <-> (f <? 0) = false.
Proof.
  rewrite ltb_spec. change (Prim2SF 0) with (S754_zero false).
  destruct (Prim2SF f) as [s|[|]| |[|] m e]; cbn; split; try reflexivity;
    try discriminate; auto.
Qed.

Lemma nonneg_not_negative (r : spec_float) : sf_nonneg r -> sf_not_negative r.
Proof. destruct r; cbn; auto. Qed.

Lemma clamp_clamped (v : float) :
  sf_clamped (Prim2SF (if v <? DBL_MIN then DBL_MIN else v)).
Proof.
  destruct (v <? DBL_MIN) eqn:E; [reflexivity|].
  rewrite ltb_spec in E.
  change (Prim2SF DBL_MIN) with (S754_finite false 4503599627370496 (-1074)) in E.
  destruct (Prim2SF v) as [s|[|]| |[|] m e]; cbn [sf_clamped]; auto; discriminate.
Qed.

Lemma inverse_of_clamped (w : float) :
  sf_clamped (Prim2SF w) -> sf_not_negative (Prim2SF (1 / w)).
Proof.
  intros H. rewrite div_spec.
  destruct (Prim2SF w) as [s|s| |s m e] eqn:Hw; cbn [sf_clamped] in H;
    try contradiction; subst.
  - reflexivity.
  - reflexivity.
  - apply nonneg_not_negative. apply SFdiv_nonneg_finite; reflexivity.
Qed.

Lemma mul_not_negative (a b : float) :
  sf_not_negative (Prim2SF a) -> sf_not_negative (Prim2SF b) ->
  sf_not_negative (Prim2SF (a * b)).
Proof.
  rewrite mul_spec. unfold SF64mul, SFmul.
  destruct (Prim2SF a) as [sa|sa| |sa ma ea], (Prim2SF b) as [sb|sb| |sb mb eb];
    cbn [sf_not_negative]; intros Ha Hb; subst; auto.
  pose proof (binary_round_aux_class false (Zpos (ma * mb)) (ea + eb) loc_Exact
                ltac:(lia)) as H.
  cbn [xorb].
  destruct (binary_round_aux _ _ _ _ _ _); cbn [sf_not_negative]; auto.
Qed.

Lemma clamped_not_negative (r : spec_float) : sf_clamped r -> sf_not_negative r.
Proof. destruct r; cbn; auto. Qed.

Lemma inverse_of_positive (p : float) :
  (0 <? p) = true -> sf_not_negative (Prim2SF (1 / p)).
Proof.
  intros H. apply inverse_of_clamped.
  rewrite ltb_spec in H. change (Prim2SF 0) with (S754_zero false) in H.
  destruct (Prim2SF p) as [s|[|]| |[|] m e]; try discriminate; reflexivity.
Qed.

(** *** Sums and differences *)

Lemma SFadd_comm (x y : spec_float) : SF64add x y = SF64add y x.
Proof.
  unfold SF64add, SFadd.
  destruct x as [sx|sx| |sx mx ex], y as [sy|sy| |sy my ey];
    try reflexivity; try (destruct sx, sy; reflexivity).
  rewrite (Z.min_comm ex ey). cbv zeta. f_equal. apply Z.add_comm.
Qed.

Lemma add_comm (x y : float) : x + y = y + x.
Proof. apply Prim2SF_inj. rewrite !add_spec. apply SFadd_comm. Qed.

Lemma binary_normalize_nonneg (m e : Z) :
  (0 <= m)%Z -> sf_nonneg (binary_normalize prec emax m e false).
Proof.
  intros Hm. unfold binary_normalize.
  destruct m as [|m|m]; [exact I | | lia].
  unfold binary_round.
  destruct (shl_align m e _) as [mz ez].
  pose proof (binary_round_aux_class false (Zpos mz) ez loc_Exact ltac:(lia)) as H.
  destruct (binary_round_aux _ _ _ _ _ _); cbn [sf_nonneg]; auto.
Qed.

(** [x - p] is not negative when [0 < p < x]. *)
Lemma sub_of_smaller (p x : float) :
  (0 <? p) = true -> (p <? x) = true -> sf_nonneg (Prim2SF (x - p)).
Proof.
  intros H0 Hlt. rewrite sub_spec. unfold SF64sub, SFsub.
  rewrite ltb_spec in H0, Hlt. change (Prim2SF 0) with (S754_zero false) in H0.
  pose proof (Prim2SF_valid p) as Vp. pose proof (Prim2SF_valid x) as Vx.
  destruct (Prim2SF p) as [sp|[|]| |[|] mp ep]; try discriminate.
  - destruct (Prim2SF x) as [sx|[|]| |[|] mx ex]; discriminate.
  - destruct (Prim2SF x) as [sx|[|]| |[|] mx ex]; try discriminate.
    + reflexivity.
    + apply SFltb_finite_pos in Hlt. cbn [valid_binary] in Vp, Vx.
      apply binary_normalize_nonneg. cbn [cond_Zopp].
      destruct (shl_align_spec mx ex (Z.min ex ep)) as (_ & Ex & ->).
      destruct (shl_align_spec mp ep (Z.min ex ep)) as (_ & Ep & ->).
      rewrite Ex, Ep.
      replace (Z.min ex (Z.min ex ep)) with (Z.min ex ep) by lia.
      replace (Z.min ep (Z.min ex ep)) with (Z.min ex ep) by lia.
      pose proof (at_least_value mp mx ep ex (Z.min ex ep) Vp Vx) as H.
      assert ((Zpos mp * 2 ^ (ep - Z.min ex ep) <= Zpos mx * 2 ^ (ex - Z.min ex ep))%Z);
        [apply H; lia | lia].
Qed.

(** [x - p + 1] is positive when [0 < p < x]. *)
Lemma first_denominator_positive (p x : float) :
  (0 <? p) = true -> (p <? x) = true -> (0 <? x - p + 1) = true.
Proof.
  intros H0 Hlt. rewrite add_comm.
  pose proof (add_lower 1 (x - p) 4503599627370496 (-52) eq_refl
                (sub_of_smaller p x H0 Hlt)) as H.
  rewrite ltb_spec. change (Prim2SF 0) with (S754_zero false).
  destruct (Prim2SF (1 + (x - p))) as [s|s| |s m e]; cbn [sf_at_least] in H;
    try contradiction.
  - subst s. reflexivity.
  - destruct H as [-> _]. reflexivity.
Qed.

End SignFacts.

Module DifferenceFacts.
Import Double FloatFacts RoundingFacts OrderFacts SignFacts.
Local Open Scope Z_scope.

(** A positive integer multiple of [2^e], [e >= -1074], rounds to a
    positive double. *)
Lemma binary_normalize_positive (d : positive) (e : Z) :
  -1074 <= e ->
  sf_at_least 1 (-1074) (binary_normalize prec emax (Zpos d) e false).
Proof.
  intros He. cbn [binary_normalize]. unfold binary_round.
  pose proof (shl_align_spec d e
                (SpecFloat.fexp prec emax (Zpos (digits2_pos d) + e)))
    as (Hc0 & Hc1 & Hc2).
  cbv zeta in *. rewrite fexp64 in *.
  destruct (shl_align d e _) as [mz ez']. cbn [fst snd] in *.
  pose proof (binary_round_aux_lower false 1 mz (-1074) ez' (-1074) loc_Exact
                eq_refl ltac:(lia) ltac:(lia)) as Hlow.
  assert (Hle : 1 * 2 ^ (-1074 - -1074) <= Zpos mz * 2 ^ (ez' - -1074)).
  { rewrite Z.sub_diag. change (1 * 2 ^ 0) with 1.
    assert (1 <= 2 ^ (ez' - -1074)) by (apply (Z.pow_le_mono_r 2 0); lia).
    nia. }
  specialize (Hlow Hle). unfold sf_at_least.
  destruct (binary_round_aux prec emax false (Zpos mz) ez' loc_Exact); assumption.
Qed.

Local Open Scope float_scope.

(** [x - p] is positive when [0 < p < x]. *)
Lemma sub_positive (p x : float) :
  (0 <? p) = true -> (p <? x) = true -> (0 <? x - p) = true.
Proof.
  intros H0 Hlt.
  assert (H : sf_at_least 1 (-1074) (Prim2SF (x - p))).
  { rewrite sub_spec. unfold SF64sub, SFsub.
    rewrite ltb_spec in H0, Hlt. change (Prim2SF 0) with (S754_zero false) in H0.
    pose proof (Prim2SF_valid p) as Vp. pose proof (Prim2SF_valid x) as Vx.
    destruct (Prim2SF p) as [sp|[|]| |[|] mp ep]; try discriminate.
    - destruct (Prim2SF x) as [sx|[|]| |[|] mx ex]; discriminate.
    - destruct (Prim2SF x) as [sx|[|]| |[|] mx ex]; try discriminate.
      + reflexivity.
      + apply SFltb_finite_pos in Hlt. cbn [valid_binary] in Vp, Vx.
        pose proof (bounded_mantissa _ _ Vp) as [Hp1 Hp2].
        pose proof (bounded_mantissa _ _ Vx) as [Hx1 Hx2].
        pose proof (bounded_digits _ _ Vp) as (_ & Hep & _).
        pose proof (bounded_digits _ _ Vx) as (_ & Hex & _).
        cbn [cond_Zopp].
        destruct (shl_align_spec mx ex (Z.min ex ep)) as (_ & Ex & ->).
        destruct (shl_align_spec mp ep (Z.min ex ep)) as (_ & Ep & ->).
        rewrite Ex, Ep.
        replace (Z.min ex (Z.min ex ep)) with (Z.min ex ep) by lia.
        replace (Z.min ep (Z.min ex ep)) with (Z.min ex ep) by lia.
        assert (Hd : (0 < Zpos mx * 2 ^ (ex - Z.min ex ep)
                          - Zpos mp * 2 ^ (ep - Z.min ex ep))%Z).
        { destruct Hlt as [Hlt | [-> Hlt]].
          - replace (Z.min ex ep) with ep by lia.
            rewrite Z.sub_diag. change (2 ^ 0)%Z with 1%Z.
            specialize (Hx2 ltac:(lia)).
            assert (2 <= 2 ^ (ex - ep))%Z
              by (apply (Z.pow_le_mono_r 2 1); lia).
            change (2 ^ 53)%Z with (2 ^ 52 * 2)%Z in Hp1. nia.
          - rewrite Z.min_id, Z.sub_diag. change (2 ^ 0)%Z with 1%Z. lia. }
        destruct (Zpos mx * 2 ^ (ex - Z.min ex ep)
                  - Zpos mp * 2 ^ (ep - Z.min ex ep))%Z as [|d|d] eqn:Ed;
          try lia.
        apply binary_normalize_positive. lia. }
  rewrite ltb_spec. change (Prim2SF 0) with (S754_zero false).
  destruct (Prim2SF (x - p)) as [s|s| |s m e]; cbn [sf_at_least] in H;
    try contradiction.
  - subst s. reflexivity.
  - destruct H as [-> _]. reflexivity.
Qed.

(** *** Infinities *)

Lemma positive_over_zero (y : float) : (0 <? y) = true -> y / 0 = infinity.
Proof.
  intros H. apply Prim2SF_inj. rewrite div_spec.
  rewrite ltb_spec in H. change (Prim2SF 0) with (S754_zero false) in *.
  destruct (Prim2SF y) as [s|[|]| |[|] m e]; try discriminate; reflexivity.
Qed.

Lemma positive_times_infinity (y : float) :
  (0 <? y) = true -> y * infinity = infinity.
Proof.
  intros H. apply Prim2SF_inj. rewrite mul_spec.
  rewrite ltb_spec in H. change (Prim2SF 0) with (S754_zero false) in *.
  destruct (Prim2SF y) as [s|[|]| |[|] m e]; try discriminate; reflexivity.
Qed.

Lemma minus_infinity (v : float) :
  (v <? infinity) = true -> v - infinity = neg_infinity.
Proof.
  intros H. apply Prim2SF_inj. rewrite sub_spec.
  rewrite ltb_spec in H.
  change (Prim2SF infinity) with (S754_infinity false) in *.
  destruct (Prim2SF v) as [s|[|]| |[|] m e]; try discriminate; reflexivity.
Qed.

End DifferenceFacts.

(** ** [pgm_erfc] at the edges *)

Module ErfcEdges.
Import Double Pgm FloatFacts RankFacts ErfcFacts.
Local Open Scope float_scope.

(** Outside [[PGM_SMALL_VAL, PGM_BIG_VAL)] the result is a constant:
    exactly [2] below [PGM_SMALL_VAL] ([-inf] included), and exactly [0]
    for every [x] that is not below [PGM_BIG_VAL]: [x >= PGM_BIG_VAL],
    [+inf], and also a NaN, which fails every test of lines 41-77 and
    falls to the last branch.  A NaN argument is not propagated. *)
Theorem pgm_erfc_saturation (M : libm) (x : float) :
  ((x <? PGM_SMALL_VAL) = true -> pgm_erfc M x = Some 2) /\
  ((x <? PGM_BIG_VAL) = false -> pgm_erfc M x = Some 0).
Proof.
  split; intros H; unfold pgm_erfc; cbn [pgm_erfc_rec]; cbv zeta.
  - now rewrite H.
  - rewrite (ltb_false_below x _ PGM_SMALL_VAL H eq_refl).
    rewrite (ltb_false_below x _ (- DBL_EPSILON) H eq_refl).
    rewrite (ltb_false_below x _ DBL_EPSILON H eq_refl).
    rewrite (ltb_false_below x _ 0.5 H eq_refl).
    rewrite (ltb_false_below x _ 4 H eq_refl).
    now rewrite H.
Qed.

(** The theorem at [-inf], [-7], NaN, [27] and [+inf]. *)
Lemma pgm_erfc_saturation_runs :
  (pgm_erfc RefLibm.ref_libm neg_infinity = Some 2 /\
   pgm_erfc RefLibm.ref_libm (-7) = Some 2) /\
  (pgm_erfc RefLibm.ref_libm nan = Some 0 /\
   pgm_erfc RefLibm.ref_libm 27 = Some 0 /\
   pgm_erfc RefLibm.ref_libm infinity = Some 0).
Proof.
  split; [split | split; [|split]].
  - exact (proj1 (pgm_erfc_saturation RefLibm.ref_libm neg_infinity) eq_refl).
  - exact (proj1 (pgm_erfc_saturation RefLibm.ref_libm (-7)) eq_refl).
  - exact (proj2 (pgm_erfc_saturation RefLibm.ref_libm nan) eq_refl).
  - exact (proj2 (pgm_erfc_saturation RefLibm.ref_libm 27) eq_refl).
  - exact (proj2 (pgm_erfc_saturation RefLibm.ref_libm infinity) eq_refl).
Defined.

(** [pgm_erfc] returns on every double, and its recursion is one call
    deep at most: the value is the same with any fuel from [2] on, and
    where one unit of fuel does not suffice (the branch of line 45), the
    inner call on [-x] returns with one unit, without a further call, and
    the result is [2] minus its value. *)
Theorem pgm_erfc_call_depth (M : libm) (x : float) :
  exists v,
    pgm_erfc M x = Some v /\
    (forall fuel, (2 <= fuel)%nat -> pgm_erfc_rec M fuel x = Some v) /\
    (pgm_erfc_rec M 1 x = None ->
     exists y, pgm_erfc_rec M 1 (- x) = Some y /\ v = 2 - y).
Proof.
  destruct (pgm_erfc_total M x) as [v Hv]. exists v.
  split; [exact Hv|]. split.
  - intros fuel Hf. rewrite pgm_erfc_rec_fuel; assumption.
  - intros H1.
    destruct (x <? PGM_SMALL_VAL) eqn:E1.
    { destruct (pgm_erfc_rec_direct M 0 x (or_introl E1)) as [w Hw]. congruence. }
    destruct (x <? - DBL_EPSILON) eqn:E2.
    2:{ destruct (pgm_erfc_rec_direct M 0 x (or_intror E2)) as [w Hw]. congruence. }
    destruct (reflected_argument x E2) as [_ H2].
    destruct (pgm_erfc_rec_direct M 0 (- x) (or_intror H2)) as [y Hy].
    exists y. split; [exact Hy|].
    unfold pgm_erfc in Hv. rewrite (pgm_erfc_rec_reflect M 1 x E1 E2), Hy in Hv.
    cbn [bind] in Hv. congruence.
Qed.

End ErfcEdges.

(** ** [pgm_lgamma] at the edges *)

Module LgammaEdges.
Import Double Pgm FloatFacts RoundingFacts OrderFacts RankFacts CastFacts LgammaFacts.
Local Open Scope float_scope.

(** Past the lookup every branch returns. *)
Lemma lgamma_no_lookup (M : libm) (z : float) :
  lgamma_lookup_guard z = Some false -> exists v, pgm_lgamma M z = Some v.
Proof.
  intros Hg. unfold pgm_lgamma. rewrite Hg. cbn [bind]. cbv zeta.
  repeat match goal with
         | |- exists v, (if ?c then _ else _) = Some v => destruct c
         end; eauto.
Qed.

Lemma finite_not_zero (z : float) (s : bool) (m : positive) (e : Z) :
  Prim2SF z = S754_finite s m e -> (z =? 0) = false.
Proof.
  intros Hz. rewrite eqb_spec, Hz. now destruct s.
Qed.

Lemma negative_below_201 (z : float) (m : positive) (e : Z) :
  Prim2SF z = S754_finite true m e -> (z <? 201) = true.
Proof. intros Hz. rewrite ltb_spec, Hz. reflexivity. Qed.

Lemma negative_not_above (z c : float) (m : positive) (e : Z) :
  Prim2SF z = S754_finite true m e -> (0 <=? c) = true -> (c <? z) = false.
Proof.
  intros Hz Hc. apply leb_zero_nonneg in Hc. rewrite ltb_spec, Hz.
  destruct (Prim2SF c) as [s|s| |s mc ec]; cbn [sf_nonneg] in Hc;
    try contradiction; subst; reflexivity.
Qed.

(** The guard on a double with [|z| < 1] that is not a zero. *)
Lemma lgamma_guard_small (z : float) (s : bool) (m : positive) (e : Z) :
  Prim2SF z = S754_finite s m e -> (e < -52)%Z ->
  lgamma_lookup_guard z = Some false.
Proof.
  intros Hz He. unfold lgamma_lookup_guard.
  destruct (z <? 201); [|reflexivity].
  rewrite (to_size_t_small z s m e Hz He). cbn [bind].
  change (of_size_t 0) with 0. now rewrite (finite_not_zero z s m e Hz).
Qed.

(** The guard on a positive double. *)
Lemma lgamma_guard_positive (M : libm) (z : float) (m : positive) (e : Z) :
  Prim2SF z = S754_finite false m e -> exists v, pgm_lgamma M z = Some v.
Proof.
  intros Hz.
  assert (Hpos : (0 <? z) = true) by (rewrite ltb_spec, Hz; reflexivity).
  destruct (lgamma_lookup_guard z) as [[|]|] eqn:Hg.
  - unfold pgm_lgamma. rewrite Hg. cbn [bind].
    unfold lgamma_lookup_guard in Hg.
    destruct (z <? 201) eqn:Hlt; [|discriminate].
    destruct (to_size_t_below_201 z Hpos Hlt) as (n & Hn & Hr & _).
    rewrite Hn in *. cbn [bind] in *. injection Hg as Heq.
    assert (n <> 0%Z).
    { intros ->. change (of_size_t 0) with 0 in Heq.
      rewrite (finite_not_zero z _ _ _ Hz) in Heq. discriminate. }
    replace (lgamma_index n) with (n - 1)%Z
      by (unfold lgamma_index; symmetry; apply Z.mod_small; lia).
    destruct (logfactorial_at_in_bounds (n - 1)) as (v & Hv & _); [lia|].
    eauto.
  - now apply lgamma_no_lookup.
  - unfold lgamma_lookup_guard in Hg.
    destruct (z <? 201) eqn:Hlt; [|discriminate].
    destruct (to_size_t_below_201 z Hpos Hlt) as (n & Hn & _).
    rewrite Hn in Hg. discriminate.
Qed.

(** Where [pgm_lgamma] returns, and where it does not. *)
Lemma lgamma_defined (M : libm) (z : float) :
  (z <=? -1) = false -> (z =? 0) = false -> exists v, pgm_lgamma M z = Some v.
Proof.
  intros H1 H0.
  destruct (Prim2SF z) as [s|s| |s m e] eqn:Hz.
  - destruct (Prim2SF_zero_cases z s Hz) as [-> | ->]; discriminate.
  - destruct (Prim2SF_infinity_cases z s Hz) as [-> | ->];
      [eexists; reflexivity | discriminate].
  - apply Prim2SF_nan in Hz. subst z. eexists. reflexivity.
  - destruct s.
    + rewrite (leb_minus_one z m e Hz) in H1.
      destruct (Z.ltb_spec e (-52)) as [E|E]; [|discriminate].
      exact (lgamma_no_lookup M z (lgamma_guard_small z _ m e Hz E)).
    + exact (lgamma_guard_positive M z m e Hz).
Qed.

Lemma lgamma_undefined (M : libm) (z : float) :
  (z <=? -1) = true \/ (z =? 0) = true -> pgm_lgamma M z = None.
Proof.
  intros H.
  destruct (Prim2SF z) as [s|s| |s m e] eqn:Hz.
  - destruct (Prim2SF_zero_cases z s Hz) as [-> | ->]; reflexivity.
  - destruct (Prim2SF_infinity_cases z s Hz) as [-> | ->];
      [destruct H; discriminate | reflexivity].
  - apply Prim2SF_nan in Hz. subst z. destruct H; discriminate.
  - rewrite (finite_not_zero z s m e Hz) in H.
    destruct H as [H|H]; [|discriminate].
    destruct s; [|rewrite leb_spec, Hz in H; discriminate].
    unfold pgm_lgamma, lgamma_lookup_guard.
    rewrite (negative_below_201 z m e Hz).
    assert (Hu : to_size_t z = None) by (apply to_size_t_undefined; auto).
    now rewrite Hu.
Qed.

(** [pgm_lgamma] has undefined behaviour exactly on [z <= -1] (the
    conversion of line 199) and on [z == 0] (the read of line 200,
    outside the table); on every other double, NaN and [+inf] included,
    it returns. *)
Theorem pgm_lgamma_undefined (M : libm) (z : float) :
  pgm_lgamma M z = None <-> (z <=? -1) = true \/ (z =? 0) = true.
Proof.
  split; [|apply lgamma_undefined].
  intros H. destruct (z <=? -1) eqn:H1; [now left|].
  destruct (z =? 0) eqn:H0; [now right|].
  destruct (lgamma_defined M z H1 H0) as [v Hv]. congruence.
Qed.

(** Where the argument is no positive normal number and the behaviour is
    defined, that is for [-1 < z < 0], for [0 < z <= DBL_MIN] and for a
    NaN, [pgm_lgamma] returns the constant [PGM_MAX_EXP] (line 264). *)
Theorem pgm_lgamma_degenerate (M : libm) (z : float) :
  (z <=? -1) = false -> (z =? 0) = false -> (DBL_MIN <? z) = false ->
  pgm_lgamma M z = Some PGM_MAX_EXP.
Proof.
  intros H1 H0 Hm.
  assert (Hg : lgamma_lookup_guard z = Some false).
  { destruct (Prim2SF z) as [s|s| |s m e] eqn:Hz.
    - destruct (Prim2SF_zero_cases z s Hz) as [-> | ->]; discriminate.
    - destruct (Prim2SF_infinity_cases z s Hz) as [-> | ->]; discriminate.
    - apply Prim2SF_nan in Hz. subst z. reflexivity.
    - apply (lgamma_guard_small z s m e Hz). destruct s.
      + rewrite (leb_minus_one z m e Hz) in H1.
        destruct (Z.ltb_spec e (-52)); [assumption | discriminate].
      + apply ltb_false_rank in Hm. rewrite Hz in Hm.
        destruct Hm as [Hm|[Hm|Hm]]; try discriminate.
        change (Prim2SF DBL_MIN)
          with (S754_finite false 4503599627370496 (-1074)) in Hm.
        unfold rank in Hm. cbv zeta in Hm.
        assert (Hc : (Zpos 4503599627370496 < 2 ^ 53)%Z) by reflexivity.
        revert Hm Hc. generalize 4503599627370496%positive. intros c Hm Hc.
        set (B := (2 ^ 53)%Z) in *. assert (0 < B)%Z by reflexivity.
        assert (e + 1075 <= -1074 + 1075)%Z by nia. lia. }
  unfold pgm_lgamma. rewrite Hg. cbn [bind]. cbv zeta.
  rewrite (ltb_false_above z DBL_MIN 12 Hm eq_refl).
  rewrite (leb_false_above z DBL_MIN 4 Hm eq_refl).
  rewrite (ltb_false_above z DBL_MIN 1.5 Hm eq_refl).
  rewrite (leb_false_above z DBL_MIN 0.5 Hm eq_refl).
  rewrite (ltb_false_above z DBL_MIN DBL_EPSILON Hm eq_refl).
  now rewrite Hm.
Qed.

(** The theorem at [-0.5], at the subnormal [2^-1060] and at NaN. *)
Lemma pgm_lgamma_degenerate_runs :
  pgm_lgamma RefLibm.ref_libm (-0.5) = Some PGM_MAX_EXP /\
  pgm_lgamma RefLibm.ref_libm 0x1p-1060 = Some PGM_MAX_EXP /\
  pgm_lgamma RefLibm.ref_libm nan = Some PGM_MAX_EXP.
Proof.
  split; [|split].
  - exact (pgm_lgamma_degenerate RefLibm.ref_libm (-0.5) eq_refl eq_refl eq_refl).
  - exact (pgm_lgamma_degenerate RefLibm.ref_libm 0x1p-1060 eq_refl eq_refl eq_refl).
  - exact (pgm_lgamma_degenerate RefLibm.ref_libm nan eq_refl eq_refl eq_refl).
Defined.

(** *** The table *)

Lemma sorted_nth_error (R : float -> float -> Prop) (l : list float) :
  (forall a b c, R a b -> R b c -> R a c) -> Sorted R l ->
  forall (i j : nat) (a b : float),
    (i < j)%nat -> nth_error l i = Some a -> nth_error l j = Some b -> R a b.
Proof.
  intros HR Hs. apply Sorted_StronglySorted in Hs; [|exact HR].
  induction Hs as [|x l Hs IH Hx]; intros i j a b Hij Ha Hb.
  - destruct i; discriminate.
  - destruct j as [|j]; [lia|]. cbn [nth_error] in Hb.
    destruct i as [|i].
    + injection Ha as <-. rewrite Forall_forall in Hx.
      apply Hx. eapply nth_error_In; eassumption.
    + cbn [nth_error] in Ha. apply (IH i j); [lia | assumption | assumption].
Qed.

Lemma leb_trans (a b c : float) :
  (a <=? b) = true -> (b <=? c) = true -> (a <=? c) = true.
Proof.
  rewrite !leb_rank. intros (Na & Nb & H1) (_ & Nc & H2).
  repeat split; auto. lia.
Qed.

Lemma ltb_trans (a b c : float) :
  (a <? b) = true -> (b <? c) = true -> (a <? c) = true.
Proof.
  rewrite !ltb_rank. intros (Na & Nb & H1) (_ & Nc & H2).
  repeat split; auto. lia.
Qed.

Lemma leb_refl_of_nonneg (a : float) : (0 <=? a) = true -> (a <=? a) = true.
Proof. rewrite !leb_rank. intros (_ & Na & _). repeat split; auto. lia. Qed.

Lemma logfactorial_sorted : Sorted (fun a b => (a <=? b) = true) logfactorial.
Proof. unfold logfactorial. repeat constructor. Qed.

Lemma logfactorial_increasing :
  Sorted (fun a b => (a <? b) = true) (tl logfactorial).
Proof. unfold logfactorial. cbn [tl]. repeat constructor. Qed.

Lemma logfactorial_nonneg (i : nat) (a : float) :
  nth_error logfactorial i = Some a -> (0 <=? a) = true.
Proof.
  intros Ha. destruct i as [|i].
  - injection Ha as <-. reflexivity.
  - apply (sorted_nth_error _ _ leb_trans logfactorial_sorted 0 (S i) 0 a);
      [lia | reflexivity | exact Ha].
Qed.

(** On the integers [1, ..., 200] [pgm_lgamma] is nonnegative and
    nondecreasing, and it is increasing from [2] on: the table of line
    129 is in order. *)
Theorem pgm_lgamma_integers_monotone (M : libm) (m n : nat) :
  (1 <= m)%nat -> (m <= n)%nat -> (n <= 200)%nat ->
  exists u v,
    pgm_lgamma M (of_size_t (Z.of_nat m)) = Some u /\
    pgm_lgamma M (of_size_t (Z.of_nat n)) = Some v /\
    (0 <=? u) = true /\ (u <=? v) = true /\
    ((2 <= m)%nat -> (m < n)%nat -> (u <? v) = true).
Proof.
  intros H1 Hmn H2.
  destruct m as [|m]; [lia|]. destruct n as [|n]; [lia|].
  destruct (lgamma_lookup_cases M m) as [_ Hm]; [lia|].
  destruct (lgamma_lookup_cases M n) as [_ Hn]; [lia|].
  rewrite Hm, Hn.
  destruct (nth_error logfactorial m) as [u|] eqn:Eu;
    [|apply nth_error_None in Eu; rewrite logfactorial_length in Eu; lia].
  destruct (nth_error logfactorial n) as [v|] eqn:Ev;
    [|apply nth_error_None in Ev; rewrite logfactorial_length in Ev; lia].
  exists u, v. pose proof (logfactorial_nonneg m u Eu) as Hu.
  repeat split; try assumption.
  - destruct (Nat.eq_dec m n) as [->|Hne].
    + assert (u = v) by congruence. subst v. now apply leb_refl_of_nonneg.
    + apply (sorted_nth_error _ _ leb_trans logfactorial_sorted m n);
        [lia | assumption | assumption].
  - intros H3 H4. destruct m as [|m]; [lia|]. destruct n as [|n]; [lia|].
    apply (sorted_nth_error _ _ ltb_trans logfactorial_increasing m n);
      [lia | exact Eu | exact Ev].
Qed.

(** The theorem at [m = 3], [n = 7]. *)
Lemma pgm_lgamma_integers_monotone_at_3_7 :
  exists u v,
    pgm_lgamma RefLibm.ref_libm (of_size_t (Z.of_nat 3)) = Some u /\
    pgm_lgamma RefLibm.ref_libm (of_size_t (Z.of_nat 7)) = Some v /\
    (0 <=? u) = true /\ (u <=? v) = true /\
    ((2 <= 3)%nat -> (3 < 7)%nat -> (u <? v) = true).
Proof. apply (pgm_lgamma_integers_monotone RefLibm.ref_libm 3 7); lia. Defined.

End LgammaEdges.

(** ** The continued fractions at the edges *)

Module ConfluentEdges.
Import Double Pgm FloatFacts NanFacts ConfluentFacts.
Local Open Scope float_scope.

(** One NaN among the terms [a], [b] of an iteration makes the whole
    update NaN: the clamps of lines 349 and 354 let a NaN through. *)
Lemma lentz_update_nan (a b c d f : float) :
  a = nan \/ b = nan -> lentz_update a b c d f = (nan, nan, nan, nan).
Proof.
  intros H. unfold lentz_update.
  assert (Hc : b + a / c = nan)
    by (destruct H as [-> | ->]; [rewrite div_nan_num; apply add_nan_r | apply add_nan_l]).
  assert (Hd : a * d + b = nan)
    by (destruct H as [-> | ->]; [rewrite mul_nan_l; apply add_nan_l | apply add_nan_r]).
  rewrite Hc, Hd.
  change (nan <? DBL_MIN) with false. cbv iota.
  rewrite (div_nan_den 1), (mul_nan nan), (mul_nan f). reflexivity.
Qed.

Lemma x_smaller_loop_nan (fuel : nat) :
  forall (r s : float) (n : Z) (b c d f : float) (ds : list float),
  (2 <= n <= 100)%Z -> (Z.to_nat (100 - n) < fuel)%nat ->
  b = nan \/ (r = nan /\ s = nan) ->
  (n = 100%Z -> f = nan) ->
  exists ds',
    x_smaller_loop fuel r s n b c d f ds = Some (nan, ds') /\
    length ds' = (length ds + Z.to_nat (100 - n))%nat.
Proof.
  induction fuel as [|fuel IH]; intros r s n b c d f ds Hn Hfuel Hnan Hf; [lia|].
  cbn [x_smaller_loop]. destruct (n <? 100)%Z eqn:En.
  - apply Z.ltb_lt in En. cbv zeta.
    rewrite lentz_update_nan.
    2:{ destruct Hnan as [-> | [-> ->]].
        - right. apply add_nan_l.
        - left. destruct (Z.land n 1 =? 0)%Z;
            [rewrite mul_nan_l; apply sub_nan_l | apply mul_nan_l]. }
    change (lentz_converged nan) with false. cbv iota.
    destruct (IH r s (n + 1)%Z (b + 1) nan nan nan (nan :: ds))
      as (ds' & Hrun & Hlen); try lia.
    { destruct Hnan as [-> | H]; [left; apply add_nan_l | right; exact H]. }
    { reflexivity. }
    exists ds'. split; [exact Hrun|]. rewrite Hlen. cbn [length].
    replace (100 - n)%Z with (Z.succ (100 - (n + 1)))%Z by lia.
    rewrite Z2Nat.inj_succ by lia. lia.
  - apply Z.ltb_ge in En. assert (n = 100%Z) by lia. subst n.
    rewrite (Hf eq_refl). exists ds. split; [reflexivity|].
    cbn. lia.
Qed.

Lemma p_smaller_loop_nan (fuel : nat) :
  forall (p : float) (n : Z) (b c d f : float) (ds : list float),
  (1 <= n <= 100)%Z -> (Z.to_nat (100 - n) < fuel)%nat ->
  b = nan \/ p = nan ->
  (n = 100%Z -> f = nan) ->
  exists ds',
    p_smaller_loop fuel p n b c d f ds = Some (nan, ds') /\
    length ds' = (length ds + Z.to_nat (100 - n))%nat.
Proof.
  induction fuel as [|fuel IH]; intros p n b c d f ds Hn Hfuel Hnan Hf; [lia|].
  cbn [p_smaller_loop]. destruct (n <? 100)%Z eqn:En.
  - apply Z.ltb_lt in En. cbv zeta.
    rewrite lentz_update_nan.
    2:{ destruct Hnan as [-> | ->].
        - right. apply add_nan_l.
        - left. rewrite sub_nan_l. apply mul_nan. }
    change (lentz_converged nan) with false. cbv iota.
    destruct (IH p (n + 1)%Z (b + 2) nan nan nan (nan :: ds))
      as (ds' & Hrun & Hlen); try lia.
    { destruct Hnan as [-> | H]; [left; apply add_nan_l | right; exact H]. }
    { reflexivity. }
    exists ds'. split; [exact Hrun|]. rewrite Hlen. cbn [length].
    replace (100 - n)%Z with (Z.succ (100 - (n + 1)))%Z by lia.
    rewrite Z2Nat.inj_succ by lia. lia.
  - apply Z.ltb_ge in En. assert (n = 100%Z) by lia. subst n.
    rewrite (Hf eq_refl). exists ds. split; [reflexivity|].
    cbn. lia.
Qed.

Lemma confluent_x_smaller_run_nan (p x : float) :
  is_nan p = true \/ is_nan x = true ->
  exists ds, confluent_x_smaller_run LENTZ_FUEL p x = Some (nan, ds) /\
             length ds = 98%nat.
Proof.
  intros H. unfold confluent_x_smaller_run.
  destruct (x_smaller_loop_nan LENTZ_FUEL (- (p - 1) * x) (0.5 * x) 2 p
              (1 / DBL_MIN) (1 / p) (1 / p) []) as (ds & Hrun & Hlen);
    [lia | vm_compute; lia | | discriminate | eauto].
  destruct H as [H|H]; apply is_nan_eq in H; subst.
  - now left.
  - right. split; apply mul_nan.
Qed.

Lemma confluent_p_smaller_run_nan (p x : float) :
  is_nan p = true \/ is_nan x = true ->
  exists ds, confluent_p_smaller_run LENTZ_FUEL p x = Some (nan, ds) /\
             length ds = 99%nat.
Proof.
  intros H. unfold confluent_p_smaller_run.
  destruct (p_smaller_loop_nan LENTZ_FUEL p 1 (x - p + 1)
              (1 / DBL_MIN) (1 / (x - p + 1)) (1 / (x - p + 1)) [])
    as (ds & Hrun & Hlen);
    [lia | vm_compute; lia | | discriminate | eauto].
  destruct H as [H|H]; apply is_nan_eq in H; subst.
  - now right.
  - left. rewrite sub_nan_l. apply add_nan_l.
Qed.

Lemma confluent_p_smaller_nan (p x : float) :
  is_nan p = true \/ is_nan x = true -> confluent_p_smaller p x = Some nan.
Proof.
  intros H. destruct (confluent_p_smaller_run_nan p x H) as (ds & Hp & _).
  unfold confluent_p_smaller. now rewrite Hp.
Qed.

(** A NaN argument never passes the convergence test: both continued
    fractions run all of their iterations (98 and 99) and return NaN. *)
Theorem confluent_nan (p x : float) :
  is_nan p = true \/ is_nan x = true ->
  (exists ds, confluent_x_smaller_run LENTZ_FUEL p x = Some (nan, ds) /\
              length ds = 98%nat) /\
  (exists ds, confluent_p_smaller_run LENTZ_FUEL p x = Some (nan, ds) /\
              length ds = 99%nat) /\
  confluent_x_smaller p x = Some nan /\
  confluent_p_smaller p x = Some nan.
Proof.
  intros H.
  pose proof (confluent_x_smaller_run_nan p x H) as Hx.
  pose proof (confluent_p_smaller_run_nan p x H) as Hp.
  split; [exact Hx|]. split; [exact Hp|].
  destruct Hx as (dx & Hx & _).
  unfold confluent_x_smaller. rewrite Hx.
  split; [reflexivity | now apply confluent_p_smaller_nan].
Qed.

(** The theorem at [p] NaN, [x = 1]. *)
Lemma confluent_nan_run :
  (exists ds, confluent_x_smaller_run LENTZ_FUEL nan 1 = Some (nan, ds) /\
              length ds = 98%nat) /\
  (exists ds, confluent_p_smaller_run LENTZ_FUEL nan 1 = Some (nan, ds) /\
              length ds = 99%nat) /\
  confluent_x_smaller nan 1 = Some nan /\
  confluent_p_smaller nan 1 = Some nan.
Proof. apply (confluent_nan nan 1). left. reflexivity. Defined.

End ConfluentEdges.

Module ConfluentSign.
Import Double Pgm FloatFacts RoundingFacts OrderFacts SignFacts ConfluentFacts.
Local Open Scope float_scope.

(** The [delta] of an iteration is never negative, and [f] stays so. *)
Lemma lentz_update_sign (a b c d f : float) :
  (f <? 0) = false ->
  let '(c', d', f', delta) := lentz_update a b c d f in
  (delta <? 0) = false /\ (f' <? 0) = false.
Proof.
  intros Hf. unfold lentz_update. cbv zeta.
  pose proof (clamp_clamped (b + a / c)) as Hc.
  pose proof (clamp_clamped (a * d + b)) as Hd.
  set (c1 := if b + a / c <? DBL_MIN then DBL_MIN else b + a / c) in *.
  set (d1 := if a * d + b <? DBL_MIN then DBL_MIN else a * d + b) in *.
  assert (Hdelta : sf_not_negative (Prim2SF (c1 * (1 / d1)))).
  { apply mul_not_negative;
      [apply clamped_not_negative, Hc | apply inverse_of_clamped, Hd]. }
  split; apply not_negative_ltb; [exact Hdelta|].
  apply mul_not_negative; [apply not_negative_ltb, Hf | exact Hdelta].
Qed.

Lemma x_smaller_loop_sign (fuel : nat) :
  forall (r s : float) (n : Z) (b c d f : float) (ds : list float),
  (2 <= n <= 100)%Z -> (Z.to_nat (100 - n) < fuel)%nat ->
  (f <? 0) = false -> forallb (fun v => negb (v <? 0)) ds = true ->
  exists f' ds',
    x_smaller_loop fuel r s n b c d f ds = Some (f', ds') /\
    (f' <? 0) = false /\ forallb (fun v => negb (v <? 0)) ds' = true.
Proof.
  induction fuel as [|fuel IH]; intros r s n b c d f ds Hn Hfuel Hf Hds; [lia|].
  cbn [x_smaller_loop]. destruct (n <? 100)%Z eqn:En; [|eauto].
  apply Z.ltb_lt in En. cbv zeta.
  match goal with
  | |- context [lentz_update ?a ?b ?c ?d ?f] =>
      pose proof (lentz_update_sign a b c d f Hf) as Hs;
      destruct (lentz_update a b c d f) as [[[c' d'] f'] delta]
  end.
  destruct Hs as [Hdelta Hf'].
  assert (Hds' : forallb (fun v => negb (v <? 0)) (delta :: ds) = true)
    by (cbn [forallb]; now rewrite Hdelta, Hds).
  destruct (lentz_converged delta); [eauto|].
  apply IH; try assumption; lia.
Qed.

Lemma p_smaller_loop_sign (fuel : nat) :
  forall (p : float) (n : Z) (b c d f : float) (ds : list float),
  (1 <= n <= 100)%Z -> (Z.to_nat (100 - n) < fuel)%nat ->
  (f <? 0) = false -> forallb (fun v => negb (v <? 0)) ds = true ->
  exists f' ds',
    p_smaller_loop fuel p n b c d f ds = Some (f', ds') /\
    (f' <? 0) = false /\ forallb (fun v => negb (v <? 0)) ds' = true.
Proof.
  induction fuel as [|fuel IH]; intros p n b c d f ds Hn Hfuel Hf Hds; [lia|].
  cbn [p_smaller_loop]. destruct (n <? 100)%Z eqn:En; [|eauto].
  apply Z.ltb_lt in En. cbv zeta.
  match goal with
  | |- context [lentz_update ?a ?b ?c ?d ?f] =>
      pose proof (lentz_update_sign a b c d f Hf) as Hs;
      destruct (lentz_update a b c d f) as [[[c' d'] f'] delta]
  end.
  destruct Hs as [Hdelta Hf'].
  assert (Hds' : forallb (fun v => negb (v <? 0)) (delta :: ds) = true)
    by (cbn [forallb]; now rewrite Hdelta, Hds).
  destruct (lentz_converged delta); [eauto|].
  apply IH; try assumption; lia.
Qed.

(** For a shape [p > 0], no [delta] of either continued fraction is
    negative and neither is the value returned (each is NaN or [>= 0]):
    the clamps of lines 349-356 and 403-410 keep [c] and [d] at or above
    [DBL_MIN], so that no iteration divides by zero or changes the sign
    of [f].  [confluent_p_smaller] is taken on its domain [p < x]. *)
Theorem confluent_not_negative (p x : float) :
  (0 <? p) = true ->
  (exists f ds,
     confluent_x_smaller_run LENTZ_FUEL p x = Some (f, ds) /\
     forallb (fun v => negb (v <? 0)) ds = true /\ (f <? 0) = false) /\
  ((p <? x) = true ->
   exists f ds,
     confluent_p_smaller_run LENTZ_FUEL p x = Some (f, ds) /\
     forallb (fun v => negb (v <? 0)) ds = true /\ (f <? 0) = false).
Proof.
  intros Hp. split.
  - destruct (x_smaller_loop_sign LENTZ_FUEL (- (p - 1) * x) (0.5 * x) 2 p
                (1 / DBL_MIN) (1 / p) (1 / p) [])
      as (f & ds & Hrun & Hf & Hds);
      [lia | vm_compute; lia | | reflexivity | ].
    + apply not_negative_ltb, inverse_of_positive, Hp.
    + exists f, ds. auto.
  - intros Hlt.
    pose proof (first_denominator_positive p x Hp Hlt) as Hb.
    destruct (p_smaller_loop_sign LENTZ_FUEL p 1 (x - p + 1)
                (1 / DBL_MIN) (1 / (x - p + 1)) (1 / (x - p + 1)) [])
      as (f & ds & Hrun & Hf & Hds);
      [lia | vm_compute; lia | | reflexivity | ].
    + apply not_negative_ltb, inverse_of_positive, Hb.
    + exists f, ds. auto.
Qed.

(** The theorem at [p = 2.5], [x = 4]. *)
Lemma confluent_not_negative_run :
  (exists f ds,
     confluent_x_smaller_run LENTZ_FUEL 2.5 4 = Some (f, ds) /\
     forallb (fun v => negb (v <? 0)) ds = true /\ (f <? 0) = false) /\
  (exists f ds,
     confluent_p_smaller_run LENTZ_FUEL 2.5 4 = Some (f, ds) /\
     forallb (fun v => negb (v <? 0)) ds = true /\ (f <? 0) = false).
Proof.
  destruct (confluent_not_negative 2.5 4 eq_refl) as [Hx Hp].
  exact (conj Hx (Hp eq_refl)).
Defined.

End ConfluentSign.

(** ** [pgm_gammaq] at the edges *)

Module GammaqEdges.
Import Double Pgm FloatFacts RoundingFacts OrderFacts RankFacts CastFacts.
Import NanFacts SignFacts ErfcFacts ConfluentFacts LgammaEdges ConfluentEdges.
Local Open Scope float_scope.

Lemma confluent_x_smaller_total (p x : float) :
  exists f, confluent_x_smaller p x = Some f.
Proof.
  destruct (x_smaller_loop_spec LENTZ_FUEL (- (p - 1) * x) (0.5 * x) 2 p
              (1 / DBL_MIN) (1 / p) (1 / p) [])
    as (ds & Hrun & _); [lia | vm_compute; lia | reflexivity | reflexivity |].
  change (confluent_x_smaller_run LENTZ_FUEL p x
          = Some (lentz_product (1 / p) ds, ds)) in Hrun.
  unfold confluent_x_smaller. rewrite Hrun. cbn [bind]. eauto.
Qed.

Lemma confluent_p_smaller_total (p x : float) :
  exists f, confluent_p_smaller p x = Some f.
Proof.
  destruct (p_smaller_loop_spec LENTZ_FUEL p 1 (x - p + 1)
              (1 / DBL_MIN) (1 / (x - p + 1)) (1 / (x - p + 1)) [])
    as (ds & Hrun & _); [lia | vm_compute; lia | reflexivity | reflexivity |].
  change (confluent_p_smaller_run LENTZ_FUEL p x
          = Some (lentz_product (1 / (x - p + 1)) ds, ds)) in Hrun.
  unfold confluent_p_smaller. rewrite Hrun. cbn [bind]. eauto.
Qed.

(** The evaluation by continued fraction is undefined only through
    [pgm_lgamma], which the branch [p < x] that is not normalized does
    not call. *)
Lemma continued_fraction_defined (M : libm) (p x : float) (normalized : bool) :
  (exists v, pgm_lgamma M p = Some v) \/ (normalized = false /\ (x <=? p) = false) ->
  exists v, gammaq_continued_fraction M p x normalized = Some v.
Proof.
  intros H. unfold gammaq_continued_fraction.
  destruct (confluent_x_smaller_total p x) as [fx Hx].
  destruct (confluent_p_smaller_total p x) as [fp Hp].
  destruct H as [[l Hl] | [-> Hs]].
  - rewrite Hl. destruct (x <=? p); [rewrite Hx | rewrite Hp]; cbn [bind];
      destruct normalized; cbn [bind]; eauto.
  - rewrite Hs, Hp. cbn [bind]. eauto.
Qed.

Lemma continued_fraction_undefined (M : libm) (p x : float) (normalized : bool) :
  pgm_lgamma M p = None -> normalized = true \/ (x <=? p) = true ->
  gammaq_continued_fraction M p x normalized = None.
Proof.
  intros Hl H. unfold gammaq_continued_fraction.
  destruct (confluent_x_smaller_total p x) as [fx Hx].
  destruct (confluent_p_smaller_total p x) as [fp Hp].
  rewrite Hl.
  destruct H as [-> | ->].
  - destruct (x <=? p); [rewrite Hx | rewrite Hp]; reflexivity.
  - rewrite Hx. cbn [bind]. destruct normalized; reflexivity.
Qed.

Lemma eqb_zero_cases (p : float) : (p =? 0) = true -> p = 0 \/ p = - 0.
Proof.
  rewrite eqb_spec. change (Prim2SF 0) with (S754_zero false).
  destruct (Prim2SF p) as [s|[|]| |[|] m e] eqn:Hp; try discriminate.
  intros _. exact (Prim2SF_zero_cases p s Hp).
Qed.

(** [pgm_gammaq] has undefined behaviour exactly:
    - with [normalized] set, when the conversion [(size_t)p] of line 450
      is undefined: [p] is NaN, [p <= -1] or [p >= 2^64];
    - with [normalized] clear, when [x <= p] and [pgm_lgamma(p)] is
      undefined: [p <= -1] or [p == 0]. *)
Theorem pgm_gammaq_undefined (M : libm) (p x : float) :
  (pgm_gammaq M p x true = None <->
   is_nan p = true \/ (p <=? -1) = true \/ (0x1p64 <=? p) = true) /\
  (pgm_gammaq M p x false = None <->
   (x <=? p) = true /\ ((p <=? -1) = true \/ (p =? 0) = true)).
Proof.
  split.
  - rewrite <- to_size_t_undefined. unfold pgm_gammaq.
    destruct (to_size_t p) as [n|] eqn:Hn; cbn [bind]; [|tauto].
    split; [|discriminate]. intros H. exfalso.
    destruct ((p =? of_size_t n) && (p <? 30)) eqn:Ei; [discriminate|].
    destruct ((p =? of_size_t n + 0.5) && (p <? 30)) eqn:Eh.
    { destruct (pgm_erfc_total M (sqrt x)) as [e He]. rewrite He in H.
      discriminate. }
    assert (H1 : (p <=? -1) = false).
    { destruct (p <=? -1) eqn:E; [|reflexivity].
      assert (to_size_t p = None) by (apply to_size_t_undefined; auto).
      congruence. }
    assert (H0 : (p =? 0) = false).
    { destruct (p =? 0) eqn:E; [|reflexivity].
      destruct (eqb_zero_cases p E) as [-> | ->];
        vm_compute in Hn; injection Hn as <-; discriminate. }
    destruct (continued_fraction_defined M p x true
                (or_introl (lgamma_defined M p H1 H0))) as [v Hv].
    congruence.
  - unfold pgm_gammaq. split.
    + intros H.
      destruct (x <=? p) eqn:Es.
      * split; [reflexivity|].
        destruct (p <=? -1) eqn:H1; [now left|].
        destruct (p =? 0) eqn:H0; [now right|].
        destruct (continued_fraction_defined M p x false
                    (or_introl (lgamma_defined M p H1 H0))) as [v Hv].
        congruence.
      * destruct (continued_fraction_defined M p x false
                    (or_intror (conj eq_refl Es))) as [v Hv].
        congruence.
    + intros [Hs Hp]. apply continued_fraction_undefined; [|now right].
      now apply lgamma_undefined.
Qed.

(** *** NaN arguments *)

(** A loop whose body leaves the state unchanged. *)
Lemma for_loop_fixed {S : Type} (count : nat) (k : Z) (body : Z -> S -> S) (s : S) :
  (forall k, body k s = s) -> for_loop count k body s = s.
Proof.
  intros H. revert k. induction count as [|count IH]; intros k; [reflexivity|].
  cbn [for_loop]. rewrite H. apply IH.
Qed.

(** The series of line 455 on a NaN [x], once an iteration has run. *)
Lemma integer_series_nan (n : Z) :
  (2 <= n)%Z -> gammaq_integer_series nan n = nan.
Proof.
  intros Hn. unfold gammaq_integer_series.
  destruct (Z.to_nat (n - 1)) as [|count] eqn:E; [lia|].
  cbn [for_loop]. rewrite div_nan_num, mul_nan, add_nan_r.
  rewrite for_loop_fixed; [reflexivity|].
  intros k. now rewrite mul_nan_l, add_nan_l.
Qed.

(** A NaN argument.  With [normalized] clear the result is NaN.  With
    [normalized] set, a NaN [p] makes the conversion of line 450
    undefined; a NaN [x] gives NaN on every path, except for the shapes
    [p == 0] and [p == 1], whose series is the constant [1]: there the
    result is [exp(NaN) * 1], whatever the platform's [exp] returns. *)
Theorem pgm_gammaq_nan (M : libm) (p x : float) :
  (is_nan p = true \/ is_nan x = true -> pgm_gammaq M p x false = Some nan) /\
  (is_nan p = true -> pgm_gammaq M p x true = None) /\
  (is_nan x = true ->
   forall n, to_size_t p = Some n ->
   if (p =? of_size_t n) && (p <? 30) && (n <? 2)%Z
   then pgm_gammaq M p x true = Some (exp M (- nan) * 1)
   else pgm_gammaq M p x true = Some nan).
Proof.
  split; [|split].
  - intros H. unfold pgm_gammaq, gammaq_continued_fraction.
    assert (Hs : (x <=? p) = false).
    { rewrite leb_spec.
      destruct H as [H|H]; apply is_nan_eq in H; subst;
        [destruct (Prim2SF x) | ]; reflexivity. }
    rewrite Hs, (confluent_p_smaller_nan p x H). cbn [bind].
    now rewrite mul_nan_l.
  - intros H. apply is_nan_eq in H. subst p. reflexivity.
  - intros H n Hn. apply is_nan_eq in H. subst x.
    unfold pgm_gammaq. rewrite Hn. cbn [bind].
    destruct ((p =? of_size_t n) && (p <? 30)) eqn:Ei; cbn [andb].
    + destruct (Z.ltb_spec n 2) as [E|E].
      * assert (Hv : (0 <= n)%Z).
        { unfold to_size_t in Hn.
          destruct (SFtrunc (Prim2SF p)) as [v|]; [|discriminate].
          cbn [bind] in Hn.
          destruct (Z.leb_spec 0 v); cbn [andb] in Hn; [|discriminate].
          destruct (v <=? SIZE_MAX)%Z; [|discriminate].
          injection Hn as <-. assumption. }
        assert (Hc : n = 0%Z \/ n = 1%Z) by lia.
        destruct Hc as [-> | ->]; reflexivity.
      * now rewrite (integer_series_nan n E), mul_nan.
    + destruct ((p =? of_size_t n + 0.5) && (p <? 30)).
      * replace (sqrt nan) with nan by reflexivity.
        replace (pgm_erfc M nan) with (Some 0) by reflexivity.
        cbn [bind]. now rewrite div_nan_den, add_nan_r.
      * unfold gammaq_continued_fraction.
        replace (nan <=? p) with false
          by (rewrite leb_spec; reflexivity).
        rewrite (confluent_p_smaller_nan p nan (or_intror eq_refl)).
        cbn [bind].
        assert (H1 : (p <=? -1) = false).
        { destruct (p <=? -1) eqn:E; [|reflexivity].
          assert (to_size_t p = None) by (apply to_size_t_undefined; auto).
          congruence. }
        assert (H0 : (p =? 0) = false).
        { destruct (p =? 0) eqn:E; [|reflexivity].
          destruct (eqb_zero_cases p E) as [-> | ->];
            vm_compute in Hn; injection Hn as <-; discriminate. }
        destruct (lgamma_defined M p H1 H0) as [l Hl]. rewrite Hl.
        cbn [bind]. now rewrite mul_nan_l.
Qed.

(** The theorem at [(2.5, NaN)], [(NaN, 2.5)] and [(7.25, NaN)]. *)
Lemma pgm_gammaq_nan_runs :
  pgm_gammaq RefLibm.ref_libm 2.5 nan false = Some nan /\
  pgm_gammaq RefLibm.ref_libm nan 2.5 true = None /\
  pgm_gammaq RefLibm.ref_libm 7.25 nan true = Some nan.
Proof.
  split; [|split].
  - apply (proj1 (pgm_gammaq_nan RefLibm.ref_libm 2.5 nan)). right. reflexivity.
  - apply (proj1 (proj2 (pgm_gammaq_nan RefLibm.ref_libm nan 2.5))). reflexivity.
  - exact (proj2 (proj2 (pgm_gammaq_nan RefLibm.ref_libm 7.25 nan))
             eq_refl 7%Z eq_refl).
Defined.

End GammaqEdges.

Module GammaqSeries.
Import Double Pgm FloatFacts RoundingFacts OrderFacts RankFacts CastFacts.
Import NanFacts SignFacts ErfcFacts ConfluentFacts LgammaEdges ConfluentEdges GammaqEdges.
Local Open Scope float_scope.

(** The doubles [0], [1], ..., [29] take the integer fast path. *)
Lemma integer_shape_dispatch (k : nat) :
  (k < 30)%nat ->
  to_size_t (of_size_t (Z.of_nat k)) = Some (Z.of_nat k) /\
  (of_size_t (Z.of_nat k) =? of_size_t (Z.of_nat k)) = true /\
  (of_size_t (Z.of_nat k) <? 30) = true.
Proof.
  intros Hk.
  do 30 (destruct k as [|k]; [repeat split; vm_compute; reflexivity|]).
  lia.
Qed.

Lemma gammaq_integer_shape (M : libm) (k : nat) (x : float) :
  (k < 30)%nat ->
  pgm_gammaq M (of_size_t (Z.of_nat k)) x true
  = Some (exp M (- x) * gammaq_integer_series x (Z.of_nat k)).
Proof.
  intros Hk. destruct (integer_shape_dispatch k Hk) as (H1 & H2 & H3).
  unfold pgm_gammaq. rewrite H1. cbn [bind]. now rewrite H2, H3.
Qed.

(** The divisors [k] of line 455. *)
Lemma small_divisor (k : Z) :
  (1 <= k < 30)%Z -> sf_pos_finite (Prim2SF (of_size_t k)).
Proof.
  intros Hk.
  assert (H : exists n, (n < 29)%nat /\ k = Z.of_nat (S n)).
  { exists (Z.to_nat (k - 1)). split; lia. }
  destruct H as (n & Hn & ->).
  do 29 (destruct n as [|n]; [reflexivity|]). lia.
Qed.

(** [sf_at_least] is monotone in its bound. *)
Lemma at_least_weaken (m1 m2 : positive) (e1 e2 : Z) (r : spec_float) :
  (e1 < e2 \/ (e2 = e1 /\ Zpos m1 <= Zpos m2))%Z ->
  sf_at_least m2 e2 r -> sf_at_least m1 e1 r.
Proof.
  intros H. destruct r as [s|s| |s m e]; cbn [sf_at_least]; auto.
  intros [-> Hr]. split; [reflexivity|]. lia.
Qed.

(** A sum [s + r] with [s >= 1] and [r >= 0] is NaN or [>= 1]. *)
Lemma add_at_least_one (s r : float) :
  Prim2SF s = S754_nan \/ sf_at_least 4503599627370496 (-52) (Prim2SF s) ->
  sf_not_negative (Prim2SF r) ->
  Prim2SF (s + r) = S754_nan \/
  sf_at_least 4503599627370496 (-52) (Prim2SF (s + r)).
Proof.
  intros [Hs|Hs] Hr.
  - left. apply Prim2SF_nan in Hs. subst s. now rewrite add_nan_l.
  - destruct (Prim2SF r) as [sr|sr| |sr mr er] eqn:Er.
    + right. destruct (Prim2SF s) as [ss|ss| |ss ms es] eqn:Es;
        cbn [sf_at_least] in Hs; try contradiction.
      * subst ss. rewrite add_spec, Es, Er. reflexivity.
      * eapply at_least_weaken; [apply Hs|].
        apply (add_lower s r ms es); [destruct Hs as [-> _]; exact Es|].
        now rewrite Er.
    + cbn in Hr. subst sr. right.
      destruct (Prim2SF s) as [ss|ss| |ss ms es] eqn:Es;
        cbn [sf_at_least] in Hs; try contradiction.
      * subst ss. rewrite add_spec, Es, Er. reflexivity.
      * rewrite add_spec, Es, Er. reflexivity.
    + left. apply Prim2SF_nan in Er. subst r. now rewrite add_nan_r.
    + cbn in Hr. subst sr. right.
      destruct (Prim2SF s) as [ss|ss| |ss ms es] eqn:Es;
        cbn [sf_at_least] in Hs; try contradiction.
      * subst ss. rewrite add_spec, Es, Er. reflexivity.
      * eapply at_least_weaken; [apply Hs|].
        apply (add_lower s r ms es); [destruct Hs as [-> _]; exact Es|].
        now rewrite Er.
Qed.

(** The invariant of the loop of lines 454-456 on [x >= 0]: [r] is never
    negative and [sum] never below [1]. *)
Lemma integer_series_loop (x : float) (count : nat) :
  (0 <=? x) = true ->
  forall (k : Z) (sum r : float),
  (1 <= k)%Z -> (k + Z.of_nat count <= 30)%Z ->
  Prim2SF sum = S754_nan \/ sf_at_least 4503599627370496 (-52) (Prim2SF sum) ->
  sf_not_negative (Prim2SF r) ->
  let res := fst (for_loop count k
                    (fun k '(sum, r) =>
                       let r := r * (x / of_size_t k) in (sum + r, r))
                    (sum, r)) in
  Prim2SF res = S754_nan \/ sf_at_least 4503599627370496 (-52) (Prim2SF res).
Proof.
  intros Hx. apply leb_zero_nonneg in Hx.
  induction count as [|count IH]; intros k sum r Hk Hc Hsum Hr; [exact Hsum|].
  cbn [for_loop]. cbv zeta.
  assert (Hr' : sf_not_negative (Prim2SF (r * (x / of_size_t k)))).
  { apply mul_not_negative; [exact Hr|].
    apply nonneg_not_negative. rewrite div_spec.
    apply SFdiv_nonneg_finite; [exact Hx | apply small_divisor; lia]. }
  apply IH; [lia | lia | | exact Hr'].
  now apply add_at_least_one.
Qed.

Lemma integer_series_at_least_one (x : float) (k : nat) :
  (0 <=? x) = true -> (k < 30)%nat ->
  Prim2SF (gammaq_integer_series x (Z.of_nat k)) = S754_nan \/
  sf_at_least 4503599627370496 (-52)
    (Prim2SF (gammaq_integer_series x (Z.of_nat k))).
Proof.
  intros Hx Hk. unfold gammaq_integer_series.
  apply integer_series_loop; try assumption; try lia.
  - right. cbn. split; [reflexivity|]. right. split; [reflexivity|]. lia.
  - reflexivity.
Qed.

(** [e * s] is not below [e] when [e >= 0] and [s] is NaN or [>= 1]. *)
Lemma scale_up (e s : float) :
  (0 <=? e) = true ->
  Prim2SF s = S754_nan \/ sf_at_least 4503599627370496 (-52) (Prim2SF s) ->
  (e * s <? e) = false.
Proof.
  intros He [Hs|Hs].
  - apply nan_not_ltb. now apply mul_nan_r.
  - apply leb_zero_nonneg in He.
    destruct (Prim2SF e) as [se|se| |se me ee] eqn:Ee; cbn [sf_nonneg] in He;
      try contradiction.
    + rewrite ltb_spec, mul_spec, Ee.
      destruct (Prim2SF s) as [ss|ss| |ss ms es]; cbn [sf_at_least] in Hs;
        try contradiction; unfold SF64mul, SFmul.
      * subst ss. destruct se; reflexivity.
      * destruct Hs as [-> _]. destruct se; reflexivity.
    + subst se. rewrite ltb_spec, mul_spec, Ee.
      destruct (Prim2SF s) as [ss|ss| |ss ms es]; cbn [sf_at_least] in Hs;
        try contradiction; unfold SF64mul, SFmul.
      * subst ss. reflexivity.
      * destruct Hs as [-> _]. reflexivity.
    + subst se. apply (at_least_leb e (e * s) me ee Ee).
      apply (mul_lower e s me ee Ee Hs).
Qed.

(** For an integer shape [p = 0, ..., 29] and [x >= 0], the normalized
    result is not below [exp(-x)], the value at [p = 1], whenever the
    platform's [exp(-x)] is not negative: the finite series of lines
    454-456 is a sum of terms that are not negative, the first of which
    is [1]. *)
Theorem gammaq_integer_at_least_exp (M : libm) (k : nat) (x : float) :
  (k < 30)%nat -> (0 <=? x) = true -> (0 <=? exp M (- x)) = true ->
  exists v, pgm_gammaq M (of_size_t (Z.of_nat k)) x true = Some v /\
            (v <? exp M (- x)) = false.
Proof.
  intros Hk Hx He. rewrite (gammaq_integer_shape M k x Hk).
  eexists. split; [reflexivity|].
  apply scale_up; [exact He|]. now apply integer_series_at_least_one.
Qed.

(** The theorem at [p = 5], [x = 2.5] with the reference [libm]. *)
Lemma gammaq_integer_at_least_exp_run :
  exists v, pgm_gammaq RefLibm.ref_libm (of_size_t (Z.of_nat 5)) 2.5 true = Some v /\
            (v <? exp RefLibm.ref_libm (- 2.5)) = false.
Proof.
  apply (gammaq_integer_at_least_exp RefLibm.ref_libm 5 2.5); [lia | | ];
    vm_compute; reflexivity.
Defined.

(** The integer fast path at [x = 0], on the shape [p = 3] with the
    reference [libm]. *)
Lemma gammaq_integer_at_zero_run :
  pgm_gammaq RefLibm.ref_libm (of_size_t (Z.of_nat 3)) 0 true = Some 1.
Proof.
  apply (GammaqFacts.gammaq_integer_at_zero RefLibm.ref_libm 3);
    [reflexivity | lia].
Defined.

End GammaqSeries.

(** ** The sampler at the edges *)

Module SamplerEdges.
Import Double Sampler FloatFacts DifferenceFacts.
Local Open Scope float_scope.

Section Hang.

Variable M : libm.
Variable G : bitgen (binary64 M).

(** With the threshold at [-inf] every proposal is rejected. *)
Lemma dagpunar_loop_rejects (fuel : nat) :
  forall (b amin1 : float) (st : bitgen_t G),
  (forall s, let x := b + fst (random_standard_exponential G s) / 1 in
             (amin1 * Double.log M x - x * 0 <? infinity) = true) ->
  (forall s, (neg_infinity <? Double.log1p M (- fst (random_standard_uniform G s))) = true) ->
  dagpunar_loop G fuel b 1 amin1 0 infinity st = None.
Proof.
  induction fuel as [|fuel IH]; intros b amin1 st HT Hu; [reflexivity|].
  cbn [dagpunar_loop].
  pose proof (HT st) as H1.
  destruct (random_standard_exponential G st) as [e st1]. cbn [fst] in H1.
  pose proof (Hu st1) as H2.
  destruct (random_standard_uniform G st1) as [u st2]. cbn [fst] in H2.
  cbn [gt add sub mul div neg log log1p binary64] in *.
  cbv zeta in H1. rewrite (minus_infinity _ H1), H2.
  apply IH; assumption.
Qed.

(** When the proposal rate [c0] of line 287 rounds to [1] (as it does
    once [t * b] is large, for instance at [a = 2], [t * b = 1e17]),
    [one_minus_c0] is [0], [log_m] is [+inf] (line 289, with
    [log(+inf) = +inf]) and the threshold of line 293 is [-inf]: every
    proposal whose [amin1 * log(x)] is not [+inf] is rejected by every
    uniform draw with [log1p(-u) > -inf], and the loop of lines 291-294
    does not end; the function does not return, whatever the fuel. *)
Theorem sampler_rate_one_never_returns (fuel : nat) (st : bitgen_t G)
    (a b t : float) :
  (1 <? a) = true ->
  dagpunar_rate (A := binary64 M) a b t = 1 ->
  Double.log M infinity = infinity ->
  (forall s, let x := t * b + fst (random_standard_exponential G s) / 1 in
             ((a - 1) * Double.log M x - x * 0 <? infinity) = true) ->
  (forall s, (neg_infinity <? Double.log1p M (- fst (random_standard_uniform G s))) = true) ->
  random_left_bounded_gamma G fuel st a b t = None.
Proof.
  intros Ha Hc Hlog HT Hu. unfold random_left_bounded_gamma.
  unfold dagpunar_rate in Hc.
  cbn [gt eq add sub mul div neg sqrt log log1p one half four binary64 num] in *.
  cbv zeta in Hc. rewrite Ha, Hc.
  assert (Hamin1 : (0 <? a - 1) = true) by (apply sub_positive; [reflexivity | exact Ha]).
  replace (1 - 1) with 0 by reflexivity.
  rewrite (positive_over_zero _ Hamin1), Hlog.
  replace (infinity - 1) with infinity by reflexivity.
  rewrite (positive_times_infinity _ Hamin1).
  now rewrite dagpunar_loop_rejects.
Qed.

End Hang.

(** The theorem at [a = 2], [b = 1e17], [t = 1] with the reference
    [libm] and the generator that draws [1] and [0.5] for ever: a
    thousand iterations do not return. *)
Lemma sampler_rate_one_never_returns_run :
  random_left_bounded_gamma (constant (binary64 RefLibm.ref_libm) 1 0.5)
    1000 tt 2 1e17 1 = None.
Proof.
  apply (sampler_rate_one_never_returns RefLibm.ref_libm
           (constant (binary64 RefLibm.ref_libm) 1 0.5) 1000 tt 2 1e17 1).
  - reflexivity.
  - vm_compute. reflexivity.
  - vm_compute. reflexivity.
  - intros s. vm_compute. reflexivity.
  - intros s. vm_compute. reflexivity.
Defined.

End SamplerEdges.

Module SamplerNan.
Import Double Sampler FloatFacts NanFacts.
Local Open Scope float_scope.

(** A NaN shape [a] fails both tests of lines 282 and 297 and is handled
    as a shape below [1]; there [amin1] is NaN, the test of line 306
    fails, and the first proposal is returned after one draw of each
    kind: the sample is [t * (1 + E / (t * b))], for every [libm] and
    generator.  A NaN shape is not reported. *)
Theorem sampler_nan_shape (M : libm) (G : bitgen (binary64 M)) (fuel : nat)
    (st : bitgen_t G) (a b t : float) :
  is_nan a = true ->
  sampler_regime (A := binary64 M) a = Philippe /\
  let (e, st1) := random_standard_exponential G st in
  let (u, st2) := random_standard_uniform G st1 in
  random_left_bounded_gamma G (S fuel) st a b t
  = Some (t * (1 + e / (t * b)), st2).
Proof.
  intros H. apply is_nan_eq in H. subst a. split; [reflexivity|].
  unfold random_left_bounded_gamma.
  cbn [gt eq add sub mul div neg sqrt log log1p one half four binary64 num
       philippe_loop].
  replace (1 <? nan) with false by reflexivity.
  replace (nan =? 1) with false by reflexivity.
  destruct (random_standard_exponential G st) as [e st1].
  destruct (random_standard_uniform G st1) as [u st2].
  rewrite sub_nan_l, mul_nan_l.
  replace (nan <? Double.log1p M (- u)) with false
    by (rewrite ltb_spec; reflexivity).
  reflexivity.
Qed.

(** The theorem on a run with the reference [libm]: the draws are [1.5]
    and [0.25], the sample is [3 * (1 + 1.5 / (3 * 2))]. *)
Lemma sampler_nan_shape_run :
  random_left_bounded_gamma (constant (binary64 RefLibm.ref_libm) 1.5 0.25)
    1 tt nan 2 3
  = Some (3.75, tt).
Proof.
  exact (proj2 (sampler_nan_shape RefLibm.ref_libm
                  (constant (binary64 RefLibm.ref_libm) 1.5 0.25) 0 tt
                  nan 2 3 eq_refl)).
Defined.

End SamplerNan.

